(** * ros2graph: the [dot] verb

    A shallow embedding of [ros2graph/verb/dot.py] (class [DotVerb]) and the
    properties of its aggregation and serialization pass.

    Python values are embedded as follows.
    - [str] is [string]; an f-string that only builds a label is the
      concatenation of its parts, and [len] of a list is a [nat].
    - The class attribute [ignore_list] and the local [namespaces] are Python
      sets: [gset string].  Iterating a [gset] ([elements]) yields each member
      once in an order fixed by the set alone, which is all the code relies on.
    - [grouped_node] is a dict that is only ever indexed: [gmap].
    - [edges] is a dict whose [values()] are iterated, so insertion order
      matters: an association list with unique keys, new keys at the end.
    - The pass allocates identifiers and writes to a [DotWriter] as it goes
      and can raise: a state-and-error monad [M] over the allocator's counter
      and the document written so far. *)

From Stdlib Require Import Ascii.
From stdpp Require Import gmap strings list fin_maps pretty.

Open Scope string_scope.
Open Scope list_scope.

(** ** Records of the discovery interface *)

(** [NodeName]: one entry of [get_node_names]; the fields [main] reads. *)
Module NodeName.
Record t := mk { namespace : string; name : string; full_name : string; id : string }.
End NodeName.

(** [TopicInfo]: one channel record; [main] reads [name] and [types]. *)
Module TopicInfo.
Record t := mk { name : string; types : list string }.
End TopicInfo.

(** [Edge = namedtuple('Edge', ('topic', 'src', 'dst', 'id', 'colour'))]. *)
Module Edge.
Record t := mk { topic : TopicInfo.t; src : list string; dst : list string; id : string; colour : string }.
End Edge.

(** The parsed command line, as [main] reads it: [args.all], [args.types],
    [args.unconnected], [args.select]. *)
Module Args.
Record t := mk { all : bool; types : bool; unconnected : bool; select : list string }.
End Args.

(** The discovery provider behind [NodeStrategy]: the seven queries of
    [ros2graph.api] that [main] calls.  The channel queries take
    [remote_node_name] and [include_hidden]. *)
Record Discovery := {
  get_node_names : bool → list NodeName.t;
  get_subscriber_info : string → bool → list TopicInfo.t;
  get_publisher_info : string → bool → list TopicInfo.t;
  get_service_client_info : string → bool → list TopicInfo.t;
  get_service_server_info : string → bool → list TopicInfo.t;
  get_action_client_info : string → bool → list TopicInfo.t;
  get_action_server_info : string → bool → list TopicInfo.t
}.

(** ** The document *)

(** One part of an f-string passed to [DotWriter.write]: literal text, or an
    interpolated identifier. *)
Inductive Frag :=
| Lit (text : string)
| Ref (ident : string).

(** A call on the [DotWriter], with its arguments.  [node] is called with
    either [label=] or [style=]. *)
Inductive DotCall :=
| begin_graph (rankdir : string) (concentrate : bool)
| begin_subgraph (ident : string) (label : string)
| write (text : list Frag)
| node (ident : string) (label : option string) (style : option string)
| edge (src dst : string) (label fontcolor color : string) (penwidth : nat)
| end_subgraph
| end_graph.

(** The text an f-string evaluates to. *)
Definition fstring (parts : list Frag) : string :=
  foldr (λ p acc, match p with Lit s => s +:+ acc | Ref i => i +:+ acc end) EmptyString parts.

(** ** The monad of the pass *)

Inductive Error := IndexError | KeyError.

Inductive Result (A : Type) :=
| Ok (a : A)
| Raise (e : Error).
Arguments Ok {A} a.
Arguments Raise {A} e.

(** The allocator's counter and the calls made on the writer so far. *)
Record State := mkState { counter : nat; document : list DotCall }.

Definition M (A : Type) : Type := State → Result A * State.

Definition raise {A} (e : Error) : M A := λ st, (Raise e, st).

(** Sequencing stops at the first exception; what was written stays written. *)
#[export] Instance M_ret : MRet M := λ A a st, (Ok a, st).

#[export] Instance M_bind : MBind M := λ A B k m st,
  match m st with
  | (Ok a, st') => k a st'
  | (Raise e, st') => (Raise e, st')
  end.

(** [for x in l: body(x)]. *)
Fixpoint for_each {A} (l : list A) (body : A → M unit) : M unit :=
  match l with
  | [] => mret tt
  | x :: l' => body x ;; for_each l' body
  end.

(** [for x in l: body(x)] where the body updates a local variable. *)
Fixpoint for_fold {A B} (l : list A) (body : A → B → M B) (acc : B) : M B :=
  match l with
  | [] => mret acc
  | x :: l' => acc' ← body x acc; for_fold l' body acc'
  end.

(** Modelled from the spec: [ros2graph.api.get_id] is not part of the sources.
    The allocator returns "the prefix [concatenated] with a strictly
    increasing counter value"; the counter is the pass's explicit state. *)
Definition get_id (prefix : string) : M string :=
  λ st, (Ok (prefix +:+ pretty (counter st)),
         mkState (S (counter st)) (document st)).

(** Modelled from the spec: [ros2graph.api.DotWriter] is not part of the
    sources.  The document is built "append-style"; every method call adds
    one [DotCall] at the end. *)
Definition emit (c : DotCall) : M unit :=
  λ st, (Ok tt, mkState (counter st) (document st ++ [c])).

(** ** [DotVerb.ignore] *)

Definition ignore_list : gset string :=
  {[ "/rosout"; "/parameter_events"; "describe_parameters"; "get_parameter_types";
     "list_parameters"; "set_parameters"; "get_parameters"; "set_parameters_atomically" ]}.

(** [s.split(sep)] for a one-character separator: the pieces between the
    separators, never the empty list. *)
Fixpoint split (sep : Ascii.ascii) (s : string) : list string :=
  match s with
  | EmptyString => [EmptyString]
  | String c s' =>
      if Ascii.eqb c sep then EmptyString :: split sep s'
      else match split sep s' with
           | [] => [String c EmptyString]
           | w :: ws => String c w :: ws
           end
  end.

(** [name in self.ignore_list or name.split('/')[-1] in self.ignore_list].
    [split] never returns the empty list, so [[-1]] is always defined. *)
Definition ignore (name : string) : bool :=
  bool_decide (name ∈ ignore_list)
  || match last (split "/"%char name) with
     | Some seg => bool_decide (seg ∈ ignore_list)
     | None => false
     end.

(** ** The edge dict *)

(** [d.get(k)]. *)
Fixpoint dict_get (k : string) (d : list (string * Edge.t)) : option Edge.t :=
  match d with
  | [] => None
  | (k', e) :: d' => if String.eqb k k' then Some e else dict_get k d'
  end.

(** [d.setdefault(k, v)]: a new key goes last, an existing one is kept. *)
Definition setdefault (k : string) (v : Edge.t) (d : list (string * Edge.t)) : list (string * Edge.t) :=
  match dict_get k d with
  | Some _ => d
  | None => d ++ [(k, v)]
  end.

(** The in-place change [f] of the value stored under [k]. *)
Fixpoint dict_alter (f : Edge.t → Edge.t) (k : string) (d : list (string * Edge.t)) : list (string * Edge.t) :=
  match d with
  | [] => []
  | (k', e) :: d' =>
      if String.eqb k k' then (k', f e) :: d' else (k', e) :: dict_alter f k d'
  end.

(** [d.values()]. *)
Definition values (d : list (string * Edge.t)) : list Edge.t := snd <$> d.

(** Which list of the edge a record extends. *)
Inductive Side := Src | Dst.

#[export] Instance Side_eq_dec : EqDecision Side.
Proof. solve_decision. Defined.

(** [edge.src.append(x)] and [edge.dst.append(x)]. *)
Definition append_to (side : Side) (x : string) (e : Edge.t) : Edge.t :=
  match side with
  | Src => Edge.mk (Edge.topic e) (Edge.src e ++ [x]) (Edge.dst e) (Edge.id e) (Edge.colour e)
  | Dst => Edge.mk (Edge.topic e) (Edge.src e) (Edge.dst e ++ [x]) (Edge.id e) (Edge.colour e)
  end.

(** ** [DotVerb.main] *)

(** Lines 59-61: [grouped_node[ns] = [n for n in node_names if ns == n.namespace]]
    for every [ns] of the set. *)
Definition group_nodes (namespaces : gset string) (node_names : list NodeName.t) : gmap string (list NodeName.t) :=
  foldl (λ grouped ns, <[ns := filter (λ n, ns = NodeName.namespace n) node_names]> grouped)
        ∅ (elements namespaces).

(** The characters the legend's text needs besides plain ones. *)
Definition dq : string := String "034"%char EmptyString.
Definition nl : string := String "010"%char EmptyString.
Definition tab : string := String "009"%char EmptyString.

(** An attribute value between double quotes. *)
Definition q (s : string) : string := dq +:+ s +:+ dq.

(** The opening tag of both legend tables, up to the end of its line. *)
Definition table_open : string :=
  " [shape=plaintext, label=<<table border=" +:+ q "0" +:+ " cellpadding=" +:+ q "2"
  +:+ " cellspacing=" +:+ q "0" +:+ " cellborder=" +:+ q "0" +:+ ">" +:+ nl.

Definition table_close : string := tab +:+ "</table>>]" +:+ nl.

(** A row of the left table and a row of the right table. *)
Definition key_row (port text : string) : string :=
  tab +:+ "<tr><td align=" +:+ q "right" +:+ " port=" +:+ q port +:+ ">" +:+ text +:+ "</td></tr>" +:+ nl.

Definition key2_row (port : string) : string :=
  tab +:+ "<tr><td port=" +:+ q port +:+ ">&nbsp;</td></tr>" +:+ nl.

(** Lines 66-84: the legend. *)
Definition write_legend : M unit :=
  cluster ← get_id "cluster_";
  emit (begin_subgraph cluster "legend") ;;
  key_id ← get_id "key_";
  key2_id ← get_id "key2_";
  emit (write [Ref key_id;
    Lit (table_open +:+ key_row "i1" "Topics" +:+ key_row "i2" "Services"
         +:+ key_row "i3" "Actions" +:+ table_close)]) ;;
  emit (write [Ref key2_id;
    Lit (table_open +:+ key2_row "i1" +:+ key2_row "i2" +:+ key2_row "i3" +:+ table_close)]) ;;
  emit (write [Ref key_id; Lit ":i1:e -> "; Ref key2_id; Lit (":i1:w [color=blue]" +:+ nl)]) ;;
  emit (write [Ref key_id; Lit ":i2:e -> "; Ref key2_id; Lit (":i2:w [color=orange]" +:+ nl)]) ;;
  emit (write [Ref key_id; Lit ":i3:e -> "; Ref key2_id; Lit (":i3:w [color=olive]" +:+ nl)]) ;;
  emit end_subgraph.

(** Python's truth value of a [str]: the empty string is false. *)
Definition truthy (s : string) : bool :=
  match s with
  | EmptyString => false
  | String _ _ => true
  end.

(** Lines 88-93: the body of [for ns in namespaces].  [grouped_node[ns]]
    raises [KeyError] for a missing key. *)
Definition write_namespace (grouped_node : gmap string (list NodeName.t)) (ns : string) : M unit :=
  (if truthy ns
   then cluster ← get_id "cluster_"; emit (begin_subgraph cluster ns)
   else mret tt) ;;
  members ← match grouped_node !! ns with
            | Some l => mret l
            | None => raise KeyError
            end;
  for_each members (λ n_node, emit (node (NodeName.id n_node) (Some (NodeName.name n_node)) None)) ;;
  (if truthy ns then emit end_subgraph else mret tt).

(** Lines 102-112 and the five blocks after it, which differ only in the
    colour and in the list that is extended: the body of [for sub in
    subscribers].  The [Edge(...)] argument of [setdefault] is evaluated on
    every call, so [get_id] runs whether or not the key is new. *)
Definition add_record (colour : string) (side : Side) (node_id : string)
    (rec : TopicInfo.t) (edges : list (string * Edge.t)) : M (list (string * Edge.t)) :=
  if ignore (TopicInfo.name rec) then mret edges
  else
    edge_id ← get_id "edge_";
    let edges := setdefault (TopicInfo.name rec) (Edge.mk rec [] [] edge_id colour) edges in
    match dict_get (TopicInfo.name rec) edges with
    | Some _ => mret (dict_alter (append_to side node_id) (TopicInfo.name rec) edges)
    | None => raise KeyError
    end.

(** ['topics' in args.select]. *)
Definition selected (category : string) (args : Args.t) : bool :=
  bool_decide (category ∈ Args.select args).

(** Lines 98-189: the body of [for node_name in node_names]. *)
Definition aggregate_node (args : Args.t) (api : Discovery) (node_name : NodeName.t)
    (edges : list (string * Edge.t)) : M (list (string * Edge.t)) :=
  let full_name := NodeName.full_name node_name in
  let node_id := NodeName.id node_name in
  edges ← (if selected "topics" args then
             edges ← for_fold (get_subscriber_info api full_name (Args.all args))
                              (add_record "blue" Dst node_id) edges;
             for_fold (get_publisher_info api full_name (Args.all args))
                      (add_record "blue" Src node_id) edges
           else mret edges);
  edges ← (if selected "services" args then
             edges ← for_fold (get_service_client_info api full_name (Args.all args))
                              (add_record "orange" Src node_id) edges;
             for_fold (get_service_server_info api full_name (Args.all args))
                      (add_record "orange" Dst node_id) edges
           else mret edges);
  if selected "actions" args then
    edges ← for_fold (get_action_client_info api full_name (Args.all args))
                     (add_record "olive" Src node_id) edges;
    for_fold (get_action_server_info api full_name (Args.all args))
             (add_record "olive" Dst node_id) edges
  else mret edges.

(** Lines 96-189: the edge aggregator. *)
Definition aggregate (args : Args.t) (api : Discovery) (node_names : list NodeName.t)
    : M (list (string * Edge.t)) :=
  for_fold node_names (aggregate_node args api) [].

(** [not l] for a list. *)
Definition is_empty {A} (l : list A) : bool :=
  match l with
  | [] => true
  | _ :: _ => false
  end.

(** Lines 192-201: the placeholders of an unconnected edge.  The appends
    change the edge's own lists; the changed edge is returned. *)
Definition resolve_unconnected (args : Args.t) (e : Edge.t) : M Edge.t :=
  e ← (if Args.unconnected args && is_empty (Edge.src e) then
         blank ← get_id "blank_r_";
         emit (node blank None (Some "invis")) ;;
         mret (append_to Src blank e)
       else mret e);
  if Args.unconnected args && is_empty (Edge.dst e) then
    blank ← get_id "blank_w_";
    emit (node blank None (Some "invis")) ;;
    mret (append_to Dst blank e)
  else mret e.

(** Lines 205-211: the body of the two nested loops.  [types[0]] raises
    [IndexError] on an empty list. *)
Definition emit_connection (args : Args.t) (e : Edge.t) (src dst : string) : M unit :=
  let label := TopicInfo.name (Edge.topic e) in
  let src_cnt := length (Edge.src e) in
  let label := if (1 <? src_cnt)%nat then label +:+ "(" +:+ pretty src_cnt +:+ ")" else label in
  label ← (if Args.types args then
             match TopicInfo.types (Edge.topic e) !! 0 with
             | Some ty => mret (label +:+ " [" +:+ ty +:+ "]")
             | None => raise IndexError
             end
           else mret label);
  emit (edge src dst label (Edge.colour e) (Edge.colour e) src_cnt).

(** Lines 203-211. *)
Definition emit_connections (args : Args.t) (e : Edge.t) : M unit :=
  for_each (Edge.src e) (λ src, for_each (Edge.dst e) (λ dst, emit_connection args e src dst)).

(** Lines 192-211: the body of [for edge in edges.values()]. *)
Definition render_edge (args : Args.t) (e : Edge.t) : M unit :=
  e ← resolve_unconnected args e;
  emit_connections args e.

(** [DotVerb.main]; [dw.end_graph()] comes after the [with] block and is
    not reached when the block raises. *)
Definition main (args : Args.t) (api : Discovery) : M unit :=
  let node_names := get_node_names api (Args.all args) in
  let namespaces : gset string := list_to_set (NodeName.namespace <$> node_names) in
  let grouped_node := group_nodes namespaces node_names in
  emit (begin_graph "LR" true) ;;
  write_legend ;;
  for_each (elements namespaces) (write_namespace grouped_node) ;;
  edges ← aggregate args api node_names;
  for_each (values edges) (render_edge args) ;;
  emit end_graph.

(** A pass started with the allocator at [c] and an empty document. *)
Definition run (c : nat) (args : Args.t) (api : Discovery) : Result unit * list DotCall :=
  let r := main args api (mkState c []) in (r.1, document r.2).

(** ** Vocabulary of the properties *)

(** The substring after the final ['/'] of a name; the whole name when it
    has none. *)
Fixpoint has_slash (s : string) : bool :=
  match s with
  | EmptyString => false
  | String c s' => Ascii.eqb c "/"%char || has_slash s'
  end.

Fixpoint last_segment (s : string) : string :=
  match s with
  | EmptyString => EmptyString
  | String c s' =>
      if has_slash s' then last_segment s'
      else if Ascii.eqb c "/"%char then s' else String c s'
  end.

(** The records of the outgoing roles (publisher, service client, action
    client) and of the incoming roles (subscriber, service server, action
    server) that the provider supplies for a node, in the enabled categories. *)
Definition outgoing_records (args : Args.t) (api : Discovery) (n : NodeName.t) : list TopicInfo.t :=
  (if selected "topics" args then get_publisher_info api (NodeName.full_name n) (Args.all args) else [])
  ++ (if selected "services" args then get_service_client_info api (NodeName.full_name n) (Args.all args) else [])
  ++ (if selected "actions" args then get_action_client_info api (NodeName.full_name n) (Args.all args) else []).

Definition incoming_records (args : Args.t) (api : Discovery) (n : NodeName.t) : list TopicInfo.t :=
  (if selected "topics" args then get_subscriber_info api (NodeName.full_name n) (Args.all args) else [])
  ++ (if selected "services" args then get_service_server_info api (NodeName.full_name n) (Args.all args) else [])
  ++ (if selected "actions" args then get_action_server_info api (NodeName.full_name n) (Args.all args) else []).

(** The records of a list that carry the channel name [name] and pass the
    ignore filter. *)
Definition kept (name : string) (recs : list TopicInfo.t) : list TopicInfo.t :=
  filter (λ r, ignore (TopicInfo.name r) = false ∧ TopicInfo.name r = name) recs.

(** One node identifier per kept record of the given role, node by node. *)
Definition contributors (role : NodeName.t → list TopicInfo.t) (name : string)
    (node_names : list NodeName.t) : list string :=
  n ← node_names; (λ _, NodeName.id n) <$> kept name (role n).

(** How many records of the given role are supplied for [name] and kept. *)
Definition record_count (role : NodeName.t → list TopicInfo.t) (name : string)
    (node_names : list NodeName.t) : nat :=
  length (n ← node_names; kept name (role n)).

(** A record as the aggregator meets it: with the colour of its category,
    the list it extends and the node it was supplied for. *)
Record Supplied := mkSupplied {
  sup_colour : string; sup_side : Side; sup_node : NodeName.t; sup_rec : TopicInfo.t
}.

(** The records of one node in the order the aggregator processes them. *)
Definition supplied_node (args : Args.t) (api : Discovery) (n : NodeName.t) : list Supplied :=
  let full_name := NodeName.full_name n in
  (if selected "topics" args then
     (mkSupplied "blue" Dst n <$> get_subscriber_info api full_name (Args.all args))
     ++ (mkSupplied "blue" Src n <$> get_publisher_info api full_name (Args.all args))
   else [])
  ++ (if selected "services" args then
        (mkSupplied "orange" Src n <$> get_service_client_info api full_name (Args.all args))
        ++ (mkSupplied "orange" Dst n <$> get_service_server_info api full_name (Args.all args))
      else [])
  ++ (if selected "actions" args then
        (mkSupplied "olive" Src n <$> get_action_client_info api full_name (Args.all args))
        ++ (mkSupplied "olive" Dst n <$> get_action_server_info api full_name (Args.all args))
      else []).

(** All records of a pass in processing order. *)
Definition supplied (args : Args.t) (api : Discovery) : list Supplied :=
  n ← get_node_names api (Args.all args); supplied_node args api n.

(** The loop body for one supplied record. *)
Definition add_supplied (s : Supplied) : list (string * Edge.t) → M (list (string * Edge.t)) :=
  add_record (sup_colour s) (sup_side s) (NodeName.id (sup_node s)) (sup_rec s).

Definition sup_name (s : Supplied) : string := TopicInfo.name (sup_rec s).

(** A record that passes the ignore filter. *)
Definition live (s : Supplied) : bool := negb (ignore (sup_name s)).

(** The node identifiers that the live records named [name] add to one side. *)
Definition side_ids (side : Side) (name : string) (evs : list Supplied) : list string :=
  (λ s, NodeName.id (sup_node s))
    <$> filter (λ s, live s = true ∧ sup_name s = name ∧ sup_side s = side) evs.

(** The first live record named [name], with the allocator's value when it
    is processed: every live record before it has taken one identifier. *)
Fixpoint first_record (name : string) (c : nat) (evs : list Supplied) : option (Supplied * nat) :=
  match evs with
  | [] => None
  | s :: evs' =>
      if live s then
        if String.eqb (sup_name s) name then Some (s, c) else first_record name (S c) evs'
      else first_record name c evs'
  end.

(** The edge that a pass started at [c] holds for [name] after [evs]. *)
Definition edge_after (name : string) (c : nat) (evs : list Supplied) : option Edge.t :=
  (λ p : Supplied * nat,
     Edge.mk (sup_rec p.1) (side_ids Src name evs) (side_ids Dst name evs)
             ("edge_" +:+ pretty p.2) (sup_colour p.1))
    <$> first_record name c evs.

(** The label of a connection: the channel name, the source count in
    parentheses when there is more than one source, and the first declared
    type in brackets when types are shown. *)
Definition label_of (args : Args.t) (e : Edge.t) : string :=
  let base := TopicInfo.name (Edge.topic e) in
  let counted :=
    if decide (1 < length (Edge.src e))
    then base +:+ "(" +:+ pretty (length (Edge.src e)) +:+ ")" else base in
  if Args.types args
  then counted +:+ " [" +:+ default EmptyString (head (TopicInfo.types (Edge.topic e))) +:+ "]"
  else counted.

(** One connection per pair of the product of the two lists, sources outermost. *)
Definition connections (args : Args.t) (e : Edge.t) : list DotCall :=
  (λ p : string * string,
     edge p.1 p.2 (label_of args e) (Edge.colour e) (Edge.colour e) (length (Edge.src e)))
    <$> list_prod (Edge.src e) (Edge.dst e).

(** The calls that render a namespace: its node entries, inside a labelled
    cluster unless the namespace is the empty one. *)
Definition node_entries (members : list NodeName.t) : list DotCall :=
  (λ n, node (NodeName.id n) (Some (NodeName.name n)) None) <$> members.

Definition namespace_block (ns : string) (members : list NodeName.t) (block : list DotCall) : Prop :=
  if decide (ns = EmptyString) then block = node_entries members
  else ∃ cluster, block = begin_subgraph cluster ns :: node_entries members ++ [end_subgraph].

(** Two identifiers that differ at most in the number after their prefix. *)
Definition id_rel (a b : string) : Prop :=
  a = b ∨ ∃ (prefix : string) (n m : nat), a = prefix +:+ pretty n ∧ b = prefix +:+ pretty m.

Inductive frag_rel : Frag → Frag → Prop :=
| frag_rel_lit s : frag_rel (Lit s) (Lit s)
| frag_rel_ref a b : id_rel a b → frag_rel (Ref a) (Ref b).

(** Two writer calls that agree on everything but identifier suffixes. *)
Inductive call_rel : DotCall → DotCall → Prop :=
| call_rel_begin_graph r c : call_rel (begin_graph r c) (begin_graph r c)
| call_rel_begin_subgraph a b l : id_rel a b → call_rel (begin_subgraph a l) (begin_subgraph b l)
| call_rel_write t1 t2 : Forall2 frag_rel t1 t2 → call_rel (write t1) (write t2)
| call_rel_node a b l s : id_rel a b → call_rel (node a l s) (node b l s)
| call_rel_edge a1 b1 a2 b2 l fc c w :
    id_rel a1 a2 → id_rel b1 b2 → call_rel (edge a1 b1 l fc c w) (edge a2 b2 l fc c w)
| call_rel_end_subgraph : call_rel end_subgraph end_subgraph
| call_rel_end_graph : call_rel end_graph end_graph.

(** Edges and edge dicts that agree up to identifier suffixes. *)
Definition edge_rel (e1 e2 : Edge.t) : Prop :=
  Edge.topic e1 = Edge.topic e2 ∧ Edge.colour e1 = Edge.colour e2
  ∧ id_rel (Edge.id e1) (Edge.id e2)
  ∧ Forall2 id_rel (Edge.src e1) (Edge.src e2) ∧ Forall2 id_rel (Edge.dst e1) (Edge.dst e2).

Definition dict_rel (d1 d2 : list (string * Edge.t)) : Prop :=
  Forall2 (λ p1 p2, p1.1 = p2.1 ∧ edge_rel p1.2 p2.2) d1 d2.

(** Two computations that, from documents agreeing up to suffixes, end alike:
    the same exception or related results, and documents that still agree. *)
Definition out_rel {A} (R : A → A → Prop) (o1 o2 : Result A * State) : Prop :=
  Forall2 call_rel (document o1.2) (document o2.2)
  ∧ match o1.1, o2.1 with
    | Ok a, Ok b => R a b
    | Raise e1, Raise e2 => e1 = e2
    | _, _ => False
    end.

Definition M_rel {A} (R : A → A → Prop) (m1 m2 : M A) : Prop :=
  ∀ st1 st2, Forall2 call_rel (document st1) (document st2) → out_rel R (m1 st1) (m2 st2).

(** A computation that only appends calls satisfying [P], whatever its outcome. *)
Definition writes {A} (P : DotCall → Prop) (m : M A) : Prop :=
  ∀ st, ∃ calls : list DotCall, document (m st).2 = (document st ++ calls)%list ∧ Forall P calls.

(** A computation that returns normally from every state. *)
Definition succeeds {A} (m : M A) : Prop :=
  ∀ st, ∃ a st', m st = (Ok a, st').

(** The calls of the legend when the allocator stands at [c]. *)
Definition legend (c : nat) : list DotCall :=
  let key_id := "key_" +:+ pretty (S c) in
  let key2_id := "key2_" +:+ pretty (S (S c)) in
  [ begin_subgraph ("cluster_" +:+ pretty c) "legend";
    write [Ref key_id;
           Lit (table_open +:+ key_row "i1" "Topics" +:+ key_row "i2" "Services"
                +:+ key_row "i3" "Actions" +:+ table_close)];
    write [Ref key2_id;
           Lit (table_open +:+ key2_row "i1" +:+ key2_row "i2" +:+ key2_row "i3" +:+ table_close)];
    write [Ref key_id; Lit ":i1:e -> "; Ref key2_id; Lit (":i1:w [color=blue]" +:+ nl)];
    write [Ref key_id; Lit ":i2:e -> "; Ref key2_id; Lit (":i2:w [color=orange]" +:+ nl)];
    write [Ref key_id; Lit ":i3:e -> "; Ref key2_id; Lit (":i3:w [color=olive]" +:+ nl)];
    end_subgraph ].

(** How many records of a list pass the ignore filter: the identifiers the
    aggregator allocates for them. *)
Definition live_count (evs : list Supplied) : nat :=
  length (filter (λ s, live s = true) evs).

(** An edge after the resolver has run on it with the allocator at [c]: an
    empty source list holds one placeholder, and so does an empty destination
    list; the second placeholder takes the next identifier when both are made. *)
Definition with_placeholders (c : nat) (e : Edge.t) : Edge.t :=
  let c' := if is_empty (Edge.src e) then S c else c in
  Edge.mk (Edge.topic e)
    (if is_empty (Edge.src e) then ["blank_r_" +:+ pretty c] else Edge.src e)
    (if is_empty (Edge.dst e) then ["blank_w_" +:+ pretty c'] else Edge.dst e)
    (Edge.id e) (Edge.colour e).

(** The invisible node entries written for those placeholders. *)
Definition placeholder_nodes (c : nat) (e : Edge.t) : list DotCall :=
  let c' := if is_empty (Edge.src e) then S c else c in
  (if is_empty (Edge.src e) then [node ("blank_r_" +:+ pretty c) None (Some "invis")] else [])
  ++ (if is_empty (Edge.dst e) then [node ("blank_w_" +:+ pretty c') None (Some "invis")] else []).

(** The allocator after the resolver: one step per placeholder. *)
Definition placeholder_count (e : Edge.t) : nat :=
  (if is_empty (Edge.src e) then 1 else 0) + (if is_empty (Edge.dst e) then 1 else 0).

(** A writer call that, if it is a connection, is drawn in [colour] and, when
    types are shown, ends its label with the first type of [rec] in brackets. *)
Definition drawn_from (args : Args.t) (rec : TopicInfo.t) (colour : string) (c : DotCall) : Prop :=
  match c with
  | edge _ _ label fontcolor color _ =>
      fontcolor = colour ∧ color = colour
      ∧ (Args.types args = true →
         ∃ base ty, TopicInfo.types rec !! 0 = Some ty ∧ label = base +:+ " [" +:+ ty +:+ "]")
  | _ => True
  end.

(** ** Sample inputs *)

(** All three categories selected, types and unconnected channels shown. *)
Definition sample_args : Args.t :=
  Args.mk false true true ["topics"; "services"; "actions"].

(** No node at all. *)
Definition empty_api : Discovery := {|
  get_node_names := λ _, [];
  get_subscriber_info := λ _ _, [];
  get_publisher_info := λ _ _, [];
  get_service_client_info := λ _ _, [];
  get_service_server_info := λ _ _, [];
  get_action_client_info := λ _ _, [];
  get_action_server_info := λ _ _, []
|}.

(** One node that publishes a channel whose record declares no type. *)
Definition untyped_api : Discovery := {|
  get_node_names := λ _, [NodeName.mk EmptyString "talker" "/talker" "node_1"];
  get_subscriber_info := λ _ _, [];
  get_publisher_info := λ _ _, [TopicInfo.mk "/chatter" []];
  get_service_client_info := λ _ _, [];
  get_service_server_info := λ _ _, [];
  get_action_client_info := λ _ _, [];
  get_action_server_info := λ _ _, []
|}.

(** Nodes [/a/b], [/a/c] and [/d].  All three publish [/Y] and [/d] also
    subscribes to it; [/d] publishes [/X], which nobody subscribes to and
    which [/a/c] has met before as a service client; every node serves its
    own [get_parameters]. *)
Definition node_b : NodeName.t := NodeName.mk "/a" "b" "/a/b" "node_1".
Definition node_c : NodeName.t := NodeName.mk "/a" "c" "/a/c" "node_2".
Definition node_d : NodeName.t := NodeName.mk EmptyString "d" "/d" "node_3".

Definition topic_Y : TopicInfo.t := TopicInfo.mk "/Y" ["std_msgs/String"; "other/Type"].
Definition topic_X : TopicInfo.t := TopicInfo.mk "/X" ["std_msgs/Bool"].
Definition service_X : TopicInfo.t := TopicInfo.mk "/X" ["std_srvs/Trigger"].

Definition sample_api : Discovery := {|
  get_node_names := λ _, [node_b; node_c; node_d];
  get_subscriber_info := λ n _, if String.eqb n "/d" then [topic_Y] else [];
  get_publisher_info := λ n _, if String.eqb n "/d" then [topic_Y; topic_X] else [topic_Y];
  get_service_client_info := λ n _, if String.eqb n "/a/c" then [service_X] else [];
  get_service_server_info := λ n _, [TopicInfo.mk (n +:+ "/get_parameters") ["rcl_interfaces/GetParameters"]];
  get_action_client_info := λ _ _, [];
  get_action_server_info := λ _ _, []
|}.

(** The records of [sample_api] in processing order, split at the first live
    record named [/X]: the service-client record of [/a/c]. *)
Definition sample_pre : list Supplied :=
  [ mkSupplied "blue" Src node_b topic_Y;
    mkSupplied "orange" Dst node_b
      (TopicInfo.mk "/a/b/get_parameters" ["rcl_interfaces/GetParameters"]);
    mkSupplied "blue" Src node_c topic_Y ].

Definition sample_first : Supplied := mkSupplied "orange" Src node_c service_X.

Definition sample_post : list Supplied :=
  [ mkSupplied "orange" Dst node_c
      (TopicInfo.mk "/a/c/get_parameters" ["rcl_interfaces/GetParameters"]);
    mkSupplied "blue" Dst node_d topic_Y;
    mkSupplied "blue" Src node_d topic_Y;
    mkSupplied "blue" Src node_d topic_X;
    mkSupplied "orange" Dst node_d
      (TopicInfo.mk "/d/get_parameters" ["rcl_interfaces/GetParameters"]) ].

(** The edge of [/Y] after aggregation when it is the only channel: three
    publishers and one subscriber. *)
Definition fan_edge : Edge.t :=
  Edge.mk topic_Y ["node_1"; "node_2"; "node_3"] ["node_3"] "edge_0" "blue".

(** An edge with a publisher and no subscriber. *)
Definition lonely_edge : Edge.t := Edge.mk topic_X ["node_3"] [] "edge_5" "blue".

(** ** Vocabulary of the further properties *)

(** A node entry with a label: the entry of a discovered node.  Placeholder
    entries carry a style and no label. *)
Definition labelled_node (c : DotCall) : bool :=
  match c with
  | node _ (Some _) _ => true
  | _ => false
  end.

(** Cluster nesting of a sequence of writer calls.  Starting inside a cluster
    or not ([inside]), the state after the calls, or [None] when a cluster is
    opened inside another, closed when none is open, or the graph itself is
    opened or closed. *)
Fixpoint nesting (inside : bool) (doc : list DotCall) : option bool :=
  match doc with
  | [] => Some inside
  | begin_subgraph _ _ :: doc' => if inside then None else nesting true doc'
  | end_subgraph :: doc' => if inside then nesting false doc' else None
  | begin_graph _ _ :: _ => None
  | end_graph :: _ => None
  | _ :: doc' => nesting inside doc'
  end.

(** The identifiers a writer call mentions. *)
Definition frag_ids (f : Frag) : list string :=
  match f with
  | Lit _ => []
  | Ref i => [i]
  end.

Definition call_ids (c : DotCall) : list string :=
  match c with
  | begin_subgraph i _ => [i]
  | write text => text ≫= frag_ids
  | node i _ _ => [i]
  | edge a b _ _ _ _ => [a; b]
  | _ => []
  end.

(** An identifier made by the allocator under one of the given prefixes. *)
Definition allocated (prefixes : list string) (i : string) : Prop :=
  ∃ prefix (n : nat), prefix ∈ prefixes ∧ i = prefix +:+ pretty n.

(** What the loop over the edges may write for the edges of a pass over
    [node_names]: invisible placeholder entries, and connections between
    discovered nodes or placeholders, in the colour of a category and with a
    pen width of at least one. *)
Definition rendering_call (node_names : list NodeName.t) (c : DotCall) : Prop :=
  match c with
  | node i None (Some style) => style = "invis" ∧ allocated ["blank_r_"; "blank_w_"] i
  | edge a b _ fontcolor color penwidth =>
      (a ∈ NodeName.id <$> node_names ∨ allocated ["blank_r_"] a)
      ∧ (b ∈ NodeName.id <$> node_names ∨ allocated ["blank_w_"] b)
      ∧ fontcolor = color ∧ color ∈ ["blue"; "orange"; "olive"]
      ∧ (1 ≤ penwidth)%nat
  | _ => False
  end.

(** A computation that appends calls satisfying [P] and either returns or
    raises [IndexError]. *)
Definition renders (P : DotCall → Prop) (m : M unit) : Prop :=
  ∀ st, ∃ calls : list DotCall,
    Forall P calls
    ∧ document (m st).2 = document st ++ calls
    ∧ ((m st).1 = Ok tt ∨ (m st).1 = Raise IndexError).

(** The block of a namespace, with the cluster's identifier as the allocator
    makes it. *)
Definition cluster_block (ns : string) (members : list NodeName.t) (block : list DotCall) : Prop :=
  if decide (ns = EmptyString) then block = node_entries members
  else ∃ n : nat,
         block = begin_subgraph ("cluster_" +:+ pretty n) ns :: node_entries members ++ [end_subgraph].

(** The distinct elements of a list in order of first appearance. *)
Fixpoint first_seen (l : list string) : list string :=
  match l with
  | [] => []
  | x :: l' => x :: filter (λ y, y ≠ x) (first_seen l')
  end.

(** The channel names of the live records, in processing order. *)
Definition live_names (evs : list Supplied) : list string :=
  sup_name <$> filter (λ s, live s = true) evs.

(** [sample_api] seen through a provider that also reports action servers
    and answers differently when hidden nodes are included. *)
Definition sample_api_variant : Discovery := {|
  get_node_names := λ hidden, if hidden then [] else [node_b; node_c; node_d];
  get_subscriber_info := λ n hidden,
    if hidden then [] else if String.eqb n "/d" then [topic_Y] else [];
  get_publisher_info := λ n hidden,
    if hidden then [] else if String.eqb n "/d" then [topic_Y; topic_X] else [topic_Y];
  get_service_client_info := λ n hidden,
    if hidden then [] else if String.eqb n "/a/c" then [service_X] else [];
  get_service_server_info := λ n hidden,
    if hidden then []
    else [TopicInfo.mk (n +:+ "/get_parameters") ["rcl_interfaces/GetParameters"]];
  get_action_client_info := λ _ _, [];
  get_action_server_info := λ _ _, [TopicInfo.mk "/dock" ["nav2_msgs/Dock"]]
|}.

(** Topics and services selected, in two spellings of the selection. *)
Definition topics_services_args : Args.t :=
  Args.mk false true true ["topics"; "services"].

Definition topics_services_args_variant : Args.t :=
  Args.mk false true true ["services"; "topics"; "topics"; "bogus"].

(** Nothing selected. *)
Definition no_category_args : Args.t := Args.mk false true true [].

(** Whether rendering an edge ends in [IndexError]: types are shown, the
    record's type list is empty, and there is a connection to write, either
    because placeholders fill an empty side or because both sides have an
    identifier. *)
Definition edge_raises (args : Args.t) (e : Edge.t) : bool :=
  Args.types args && is_empty (TopicInfo.types (Edge.topic e))
  && (Args.unconnected args
      || (negb (is_empty (Edge.src e)) && negb (is_empty (Edge.dst e)))).

(** * Properties *)

(** ** The monad *)

Lemma bind_ok {A B} (m : M A) (k : A → M B) st a st' :
  m st = (Ok a, st') → (m ≫= k) st = k a st'.
Proof. intros H. unfold mbind, M_bind. by rewrite H. Qed.

Lemma bind_raise {A B} (m : M A) (k : A → M B) st e st' :
  m st = (Raise e, st') → (m ≫= k) st = (Raise e, st').
Proof. intros H. unfold mbind, M_bind. by rewrite H. Qed.

Lemma for_each_app {A} (l1 l2 : list A) (body : A → M unit) st :
  for_each (l1 ++ l2) body st = (for_each l1 body ;; for_each l2 body) st.
Proof.
  revert st. induction l1 as [|x l1 IH]; intros st; simpl.
  - reflexivity.
  - unfold mbind, M_bind in *. destruct (body x st) as [[[]|e] st1]; [apply IH | reflexivity].
Qed.

Lemma for_each_emit {A} (f : A → DotCall) (l : list A) st :
  for_each l (λ x, emit (f x)) st = (Ok tt, mkState (counter st) (document st ++ (f <$> l))).
Proof.
  revert st. induction l as [|x l IH]; intros [c doc]; simpl.
  - unfold mret, M_ret. by rewrite app_nil_r.
  - unfold mbind, M_bind, emit. simpl. rewrite IH. simpl. by rewrite <- app_assoc.
Qed.

Lemma for_fold_app {A B} (l1 l2 : list A) (body : A → B → M B) acc st :
  for_fold (l1 ++ l2) body acc st = (for_fold l1 body acc ≫= for_fold l2 body) st.
Proof.
  revert acc st. induction l1 as [|x l1 IH]; intros acc st; simpl.
  - reflexivity.
  - unfold mbind, M_bind in *. destruct (body x acc st) as [[acc'|e] st1]; [apply IH | reflexivity].
Qed.

Lemma for_fold_fmap {A A' B} (g : A → A') (l : list A) (body : A' → B → M B) acc st :
  for_fold (g <$> l) body acc st = for_fold l (λ x, body (g x)) acc st.
Proof.
  revert acc st. induction l as [|x l IH]; intros acc st; simpl; [reflexivity|].
  unfold mbind, M_bind. destruct (body (g x) acc st) as [[acc'|e] st1]; [apply IH | reflexivity].
Qed.

Lemma write_legend_eq st :
  write_legend st = (Ok tt, mkState (3 + counter st) (document st ++ legend (counter st))).
Proof.
  destruct st as [c doc]. unfold write_legend, legend, mbind, M_bind, get_id, emit. simpl.
  by repeat rewrite <- app_assoc.
Qed.

(** ** Empty discovery *)

(** C8: when no node is discovered the pass returns normally and the document
    is the graph opening, the whole legend cluster and the graph close, with
    no node entry, no other cluster and no connection. *)
Theorem empty_discovery_legend_only (args : Args.t) (api : Discovery) (c : nat) :
  get_node_names api (Args.all args) = [] →
  run c args api = (Ok tt, begin_graph "LR" true :: legend c ++ [end_graph]).
Proof.
  intros Hnodes. unfold run, main, aggregate. rewrite Hnodes. simpl.
  rewrite elements_empty. reflexivity.
Qed.

(** ** The ignore filter *)

Lemma split_nonempty sep s : split sep s ≠ [].
Proof. destruct s as [|c s]; simpl; [done|]. destruct (Ascii.eqb c sep); [done|]. by destruct (split sep s). Qed.

Lemma split_no_slash s : has_slash s = false → split "/" s = [s].
Proof.
  induction s as [|c s IH]; simpl; [done|].
  intros [Hc Hs]%orb_false_elim. rewrite Hc, (IH Hs). done.
Qed.

Lemma split_has_slash s : has_slash s = true → ∃ w w' ws, split "/" s = w :: w' :: ws.
Proof.
  induction s as [|c s IH]; simpl; [done|].
  destruct (Ascii.eqb c "/") eqn:Hc; simpl.
  - intros _. destruct (split "/" s) as [|w ws] eqn:Hsp; [by apply split_nonempty in Hsp|]. eauto.
  - intros Hs. destruct (IH Hs) as (w & w' & ws & ->). eauto.
Qed.

Lemma last_segment_no_slash s : has_slash s = false → last_segment s = s.
Proof.
  destruct s as [|c s]; simpl; [done|].
  intros [Hc Hs]%orb_false_elim. by rewrite Hs, Hc.
Qed.

(** [name.split('/')[-1]] is the substring after the final slash. *)
Lemma last_split s : last (split "/" s) = Some (last_segment s).
Proof.
  induction s as [|c s IH]; simpl; [done|].
  destruct (has_slash s) eqn:Hs.
  - destruct (split_has_slash s Hs) as (w & w' & ws & Hsp). rewrite Hsp in *.
    destruct (Ascii.eqb c "/"); exact IH.
  - rewrite (split_no_slash s Hs). by destruct (Ascii.eqb c "/").
Qed.

Lemma ignore_list_members x :
  x ∈ ignore_list ↔
  x ∈ ["/rosout"; "/parameter_events"; "describe_parameters"; "get_parameter_types";
       "list_parameters"; "set_parameters"; "get_parameters"; "set_parameters_atomically"].
Proof.
  unfold ignore_list.
  rewrite !elem_of_union, !elem_of_singleton, !elem_of_cons, elem_of_nil. tauto.
Qed.

Lemma ignore_true name :
  ignore name = true ↔ name ∈ ignore_list ∨ last_segment name ∈ ignore_list.
Proof.
  unfold ignore. rewrite last_split, orb_true_iff, !bool_decide_eq_true. done.
Qed.

Lemma add_record_ignored colour side node_id rec edges st :
  ignore (TopicInfo.name rec) = true →
  add_record colour side node_id rec edges st = (Ok edges, st).
Proof. intros H. unfold add_record. by rewrite H. Qed.

(** ** The edge dict *)

Lemma dict_get_app k d d' :
  dict_get k (d ++ d') = match dict_get k d with Some e => Some e | None => dict_get k d' end.
Proof.
  induction d as [|[k' e] d IH]; simpl; [done|]. by destruct (String.eqb k k').
Qed.

Lemma dict_get_None k d : dict_get k d = None ↔ k ∉ d.*1.
Proof.
  induction d as [|[k' e] d IH]; simpl.
  - split; [intros _; apply not_elem_of_nil | done].
  - rewrite not_elem_of_cons. destruct (String.eqb_spec k k') as [->|Hne]; [|tauto].
    split; [done | by intros [? _]].
Qed.

Lemma dict_get_setdefault_eq k v d :
  dict_get k (setdefault k v d) = Some (default v (dict_get k d)).
Proof.
  unfold setdefault. destruct (dict_get k d) as [e|] eqn:Hget; simpl; [done|].
  rewrite dict_get_app, Hget. simpl. by rewrite String.eqb_refl.
Qed.

Lemma dict_get_setdefault_ne k k' v d :
  k ≠ k' → dict_get k' (setdefault k v d) = dict_get k' d.
Proof.
  intros Hne. unfold setdefault. destruct (dict_get k d); [done|].
  rewrite dict_get_app. simpl. destruct (String.eqb_spec k' k) as [->|_]; [done|].
  by destruct (dict_get k' d).
Qed.

Lemma dict_get_alter_eq f k d : dict_get k (dict_alter f k d) = f <$> dict_get k d.
Proof.
  induction d as [|[k' e] d IH]; simpl; [done|].
  destruct (String.eqb k k') eqn:Hk; simpl; rewrite Hk; [done | exact IH].
Qed.

Lemma dict_get_alter_ne f k k' d : k ≠ k' → dict_get k' (dict_alter f k d) = dict_get k' d.
Proof.
  intros Hne. induction d as [|[k0 e] d IH]; simpl; [done|].
  destruct (String.eqb_spec k k0) as [->|Hk]; simpl.
  - destruct (String.eqb_spec k' k0) as [->|_]; done.
  - by rewrite IH.
Qed.

Lemma dict_alter_keys f k d : (dict_alter f k d).*1 = d.*1.
Proof.
  induction d as [|[k' e] d IH]; simpl; [done|].
  destruct (String.eqb k k'); simpl; [done | by f_equal].
Qed.

Lemma setdefault_keys_NoDup k v d : NoDup d.*1 → NoDup (setdefault k v d).*1.
Proof.
  intros Hnd. unfold setdefault. destruct (dict_get k d) eqn:Hget; [done|].
  rewrite fmap_app. simpl. apply NoDup_app. split_and!; [done | | apply NoDup_singleton].
  intros x Hx ->%list_elem_of_singleton. by apply dict_get_None in Hget.
Qed.

(** ** One record *)

Lemma add_record_live colour side node_id rec edges st :
  ignore (TopicInfo.name rec) = false →
  add_record colour side node_id rec edges st =
  (Ok (dict_alter (append_to side node_id) (TopicInfo.name rec)
         (setdefault (TopicInfo.name rec)
            (Edge.mk rec [] [] ("edge_" +:+ pretty (counter st)) colour) edges)),
   mkState (S (counter st)) (document st)).
Proof.
  intros H. unfold add_record. rewrite H.
  erewrite bind_ok by reflexivity. simpl.
  by rewrite dict_get_setdefault_eq.
Qed.

Lemma add_record_NoDup colour side node_id rec edges st edges' st' :
  NoDup edges.*1 →
  add_record colour side node_id rec edges st = (Ok edges', st') →
  NoDup edges'.*1.
Proof.
  intros Hnd. destruct (ignore (TopicInfo.name rec)) eqn:Hig.
  - rewrite add_record_ignored by done. by intros [= <- _].
  - rewrite add_record_live by done. intros [= <- _].
    rewrite dict_alter_keys. by apply setdefault_keys_NoDup.
Qed.

(** ** The records of a pass, one after the other *)

Lemma live_count_snoc evs s :
  live_count (evs ++ [s]) = live_count evs + (if live s then 1 else 0).
Proof.
  unfold live_count. rewrite filter_app, length_app. f_equal.
  rewrite filter_cons, filter_nil. destruct (live s); by case_decide.
Qed.

Lemma side_ids_snoc side name evs s :
  side_ids side name (evs ++ [s]) =
  side_ids side name evs
  ++ (if decide (live s = true ∧ sup_name s = name ∧ sup_side s = side)
      then [NodeName.id (sup_node s)] else []).
Proof.
  unfold side_ids. rewrite filter_app, fmap_app. f_equal.
  rewrite filter_cons, filter_nil. by case_decide.
Qed.

Lemma first_record_snoc name c evs s :
  first_record name c (evs ++ [s]) =
  match first_record name c evs with
  | Some p => Some p
  | None => if live s && String.eqb (sup_name s) name
            then Some (s, c + live_count evs) else None
  end.
Proof.
  revert c. induction evs as [|s0 evs IH]; intros c; simpl.
  - unfold live_count. simpl. rewrite Nat.add_0_r.
    destruct (live s); simpl; [|done]. by destruct (String.eqb (sup_name s) name).
  - unfold live_count in *. rewrite filter_cons.
    destruct (live s0) eqn:Hl0.
    + destruct (String.eqb (sup_name s0) name); [done|].
      rewrite IH. rewrite decide_True by done. simpl.
      by rewrite Nat.add_succ_r.
    + rewrite IH. by rewrite decide_False by done.
Qed.

Lemma first_record_None_side_ids side name c evs :
  first_record name c evs = None → side_ids side name evs = [].
Proof.
  revert c. unfold side_ids. induction evs as [|s evs IH]; intros c; simpl; [done|].
  rewrite filter_cons. destruct (live s) eqn:Hl.
  - destruct (String.eqb_spec (sup_name s) name) as [Heq|Hne]; [done|].
    intros H. rewrite decide_False by tauto. by eapply IH.
  - intros H. rewrite decide_False by (intros [? _]; done). by eapply IH.
Qed.

Lemma first_record_Some name c evs s k :
  first_record name c evs = Some (s, k) →
  ∃ pre post, evs = pre ++ s :: post ∧ live s = true ∧ sup_name s = name
    ∧ k = c + live_count pre
    ∧ ∀ s', s' ∈ pre → live s' = true → sup_name s' ≠ name.
Proof.
  revert c. induction evs as [|s0 evs IH]; intros c; simpl; [done|].
  destruct (live s0) eqn:Hl0.
  - destruct (String.eqb_spec (sup_name s0) name) as [Heq|Hne].
    + intros [= -> ->]. exists [], evs. unfold live_count. simpl.
      split_and!; [done | done | done | lia |]. by intros s' ?%elem_of_nil.
    + intros (pre & post & -> & Hl & Hn & -> & Hpre)%IH.
      exists (s0 :: pre), post. unfold live_count. rewrite filter_cons, decide_True by done.
      simpl. split_and!; [done | done | done | lia |].
      intros s' [->|Hin]%elem_of_cons; [done | by apply Hpre].
  - intros (pre & post & -> & Hl & Hn & -> & Hpre)%IH.
    exists (s0 :: pre), post. unfold live_count. rewrite filter_cons, decide_False by congruence.
    split_and!; [done | done | done | done |].
    intros s' [->|Hin]%elem_of_cons; [congruence | by apply Hpre].
Qed.

Lemma first_record_first name c pre s post :
  live s = true → sup_name s = name →
  (∀ s', s' ∈ pre → live s' = true → sup_name s' ≠ name) →
  first_record name c (pre ++ s :: post) = Some (s, c + live_count pre).
Proof.
  intros Hl Hn. revert c. induction pre as [|s0 pre IH]; intros c Hpre; simpl.
  - rewrite Hl. destruct (String.eqb_spec (sup_name s) name); [|done].
    unfold live_count. simpl. by rewrite Nat.add_0_r.
  - unfold live_count in *. rewrite filter_cons. destruct (live s0) eqn:Hl0.
    + destruct (String.eqb_spec (sup_name s0) name) as [Heq|Hne].
      { exfalso. eapply Hpre; [apply elem_of_cons; by left | done | done]. }
      rewrite IH by (intros; apply Hpre; [by apply elem_of_cons; right | done]).
      rewrite decide_True by done. simpl. by rewrite Nat.add_succ_r.
    + rewrite IH by (intros; apply Hpre; [by apply elem_of_cons; right | done]).
      by rewrite decide_False by done.
Qed.

Lemma add_supplied_eq s d st :
  add_supplied s d st =
  if live s then
    (Ok (dict_alter (append_to (sup_side s) (NodeName.id (sup_node s))) (sup_name s)
           (setdefault (sup_name s)
              (Edge.mk (sup_rec s) [] [] ("edge_" +:+ pretty (counter st)) (sup_colour s)) d)),
     mkState (S (counter st)) (document st))
  else (Ok d, st).
Proof.
  unfold add_supplied, live, sup_name. destruct (ignore (TopicInfo.name (sup_rec s))) eqn:Hig; simpl.
  - by apply add_record_ignored.
  - by apply add_record_live.
Qed.

Ltac side_cases :=
  repeat case_decide; try (exfalso; intuition congruence); rewrite ?app_nil_r.

(** After any sequence of records the dict holds, for every name, the edge
    [edge_after] describes, under unique keys, and the allocator has moved
    by the number of live records. *)
Lemma fold_supplied evs c doc :
  ∃ d, for_fold evs add_supplied [] (mkState c doc) = (Ok d, mkState (c + live_count evs) doc)
       ∧ NoDup d.*1
       ∧ ∀ name, dict_get name d = edge_after name c evs.
Proof.
  induction evs as [|s evs (d & Hrun & Hnd & Hget)] using rev_ind.
  - exists []. unfold live_count. simpl. rewrite Nat.add_0_r.
    split_and!; [done | apply NoDup_nil_2 | done].
  - rewrite for_fold_app. erewrite bind_ok by exact Hrun. simpl.
    unfold mbind at 1, M_bind at 1. rewrite add_supplied_eq.
    rewrite live_count_snoc. unfold edge_after in *.
    destruct (live s) eqn:Hl; simpl.
    + eexists. split; [unfold mret, M_ret; do 2 f_equal; lia|].
      split; [rewrite dict_alter_keys; by apply setdefault_keys_NoDup|].
      intros name. rewrite first_record_snoc, !side_ids_snoc, Hl. simpl.
      destruct (String.eqb_spec (sup_name s) name) as [<-|Hne].
      * rewrite dict_get_alter_eq, dict_get_setdefault_eq, Hget.
        destruct (first_record (sup_name s) c evs) as [[s0 k]|] eqn:Hfirst; simpl.
        -- destruct (sup_side s); simpl; side_cases; done.
        -- rewrite !(first_record_None_side_ids _ _ _ _ Hfirst).
           destruct (sup_side s); simpl; side_cases; done.
      * rewrite dict_get_alter_ne, dict_get_setdefault_ne, Hget by done.
        side_cases. by destruct (first_record name c evs).
    + exists d. split; [unfold mret, M_ret; do 2 f_equal; lia|]. split; [done|].
      intros name. rewrite Hget, first_record_snoc, !side_ids_snoc, Hl. simpl.
      side_cases. by destruct (first_record name c evs).
Qed.

(** ** The aggregator as one loop over the supplied records *)

Lemma bind_cong {A B} (m1 m2 : M A) (k1 k2 : A → M B) st :
  m1 st = m2 st → (∀ a st', k1 a st' = k2 a st') → (m1 ≫= k1) st = (m2 ≫= k2) st.
Proof.
  intros Hm Hk. unfold mbind, M_bind. rewrite Hm.
  destruct (m2 st) as [[a|e] st']; [apply Hk | done].
Qed.

Lemma category_block (sel : bool) colour side1 side2 n l1 l2 d st :
  (if sel then
     edges ← for_fold l1 (add_record colour side1 (NodeName.id n)) d;
     for_fold l2 (add_record colour side2 (NodeName.id n)) edges
   else mret d) st =
  for_fold (if sel then (mkSupplied colour side1 n <$> l1) ++ (mkSupplied colour side2 n <$> l2)
            else []) add_supplied d st.
Proof.
  destruct sel; [|done]. rewrite for_fold_app.
  apply bind_cong; [|intros d' st']; by rewrite for_fold_fmap.
Qed.

Lemma aggregate_node_supplied args api n d st :
  aggregate_node args api n d st = for_fold (supplied_node args api n) add_supplied d st.
Proof.
  unfold aggregate_node, supplied_node. rewrite for_fold_app.
  apply bind_cong; [apply category_block|]. intros d1 st1.
  rewrite for_fold_app.
  apply bind_cong; [apply category_block|]. intros d2 st2.
  apply category_block.
Qed.

Lemma for_fold_nodes args api node_names d st :
  for_fold node_names (aggregate_node args api) d st =
  for_fold (n ← node_names; supplied_node args api n) add_supplied d st.
Proof.
  revert d st. induction node_names as [|n node_names IH]; intros d st; [done|].
  rewrite bind_cons, for_fold_app. simpl.
  apply bind_cong; [apply aggregate_node_supplied | apply IH].
Qed.

Lemma aggregate_supplied args api st :
  aggregate args api (get_node_names api (Args.all args)) st =
  for_fold (supplied args api) add_supplied [] st.
Proof. apply for_fold_nodes. Qed.

(** The aggregator returns the dict that [edge_after] describes. *)
Lemma aggregate_result args api st :
  ∃ d, aggregate args api (get_node_names api (Args.all args)) st =
         (Ok d, mkState (counter st + live_count (supplied args api)) (document st))
       ∧ NoDup d.*1
       ∧ ∀ name, dict_get name d = edge_after name (counter st) (supplied args api).
Proof. rewrite aggregate_supplied. destruct st as [c doc]. apply fold_supplied. Qed.

(** ** Source and destination lists *)

Lemma side_ids_app side name evs1 evs2 :
  side_ids side name (evs1 ++ evs2) = side_ids side name evs1 ++ side_ids side name evs2.
Proof. unfold side_ids. by rewrite filter_app, fmap_app. Qed.

Lemma side_ids_tagged side name colour side' n l :
  side_ids side name (mkSupplied colour side' n <$> l) =
  if decide (side' = side) then (λ _, NodeName.id n) <$> kept name l else [].
Proof.
  unfold side_ids, kept. induction l as [|r l IH]; [by case_decide|].
  rewrite !fmap_cons, !filter_cons. unfold live, sup_name in *. simpl.
  destruct (decide (side' = side)) as [->|Hside];
    destruct (ignore (TopicInfo.name r)) eqn:Hig; simpl;
    repeat match goal with
           | |- context [decide (?P ∧ ?Q)] => destruct (decide (P ∧ Q))
           end;
    rewrite ?fmap_cons, ?IH; try done; exfalso; intuition congruence.
Qed.

Lemma side_ids_node_src args api name n :
  side_ids Src name (supplied_node args api n) =
  (λ _, NodeName.id n) <$> kept name (outgoing_records args api n).
Proof.
  unfold supplied_node, outgoing_records, kept.
  destruct (selected "topics" args), (selected "services" args), (selected "actions" args);
    rewrite ?side_ids_app, ?side_ids_tagged, ?filter_app, ?fmap_app; simpl;
    by rewrite ?app_nil_r.
Qed.

Lemma side_ids_node_dst args api name n :
  side_ids Dst name (supplied_node args api n) =
  (λ _, NodeName.id n) <$> kept name (incoming_records args api n).
Proof.
  unfold supplied_node, incoming_records, kept.
  destruct (selected "topics" args), (selected "services" args), (selected "actions" args);
    rewrite ?side_ids_app, ?side_ids_tagged, ?filter_app, ?fmap_app; simpl;
    by rewrite ?app_nil_r.
Qed.

Lemma side_ids_src args api name node_names :
  side_ids Src name (n ← node_names; supplied_node args api n) =
  contributors (outgoing_records args api) name node_names.
Proof.
  unfold contributors. induction node_names as [|n l IH]; [done|].
  by rewrite !bind_cons, side_ids_app, side_ids_node_src, IH.
Qed.

Lemma side_ids_dst args api name node_names :
  side_ids Dst name (n ← node_names; supplied_node args api n) =
  contributors (incoming_records args api) name node_names.
Proof.
  unfold contributors. induction node_names as [|n l IH]; [done|].
  by rewrite !bind_cons, side_ids_app, side_ids_node_dst, IH.
Qed.

Lemma contributors_length role name node_names :
  length (contributors role name node_names) = record_count role name node_names.
Proof.
  unfold contributors, record_count. induction node_names as [|n l IH]; [done|].
  by rewrite !bind_cons, !length_app, length_fmap, IH.
Qed.

(** C1: after aggregation the edge of a channel name has one source entry per
    kept record of an outgoing role (publisher, service client, action client)
    and one destination entry per kept record of an incoming role
    (subscriber, service server, action server) supplied for that name: the
    lists are the supplying nodes' identifiers, one per record, duplicates
    included, so their lengths are the two record counts; a name with no
    edge has no kept record. *)
Theorem aggregate_counts (args : Args.t) (api : Discovery) (st : State) (name : string) :
  let node_names := get_node_names api (Args.all args) in
  ∃ edges st',
    aggregate args api node_names st = (Ok edges, st')
    ∧ match dict_get name edges with
      | Some e =>
          Edge.src e = contributors (outgoing_records args api) name node_names
          ∧ Edge.dst e = contributors (incoming_records args api) name node_names
          ∧ length (Edge.src e) = record_count (outgoing_records args api) name node_names
          ∧ length (Edge.dst e) = record_count (incoming_records args api) name node_names
      | None =>
          record_count (outgoing_records args api) name node_names = 0
          ∧ record_count (incoming_records args api) name node_names = 0
      end.
Proof.
  intros node_names. destruct (aggregate_result args api st) as (d & Hrun & _ & Hget).
  exists d, (mkState (counter st + live_count (supplied args api)) (document st)).
  split; [exact Hrun|]. rewrite Hget. unfold edge_after.
  rewrite <- !contributors_length.
  unfold node_names. rewrite <- side_ids_src, <- side_ids_dst. fold (supplied args api).
  destruct (first_record name (counter st) (supplied args api)) as [[s k]|] eqn:Hfirst; simpl.
  - done.
  - by rewrite !(first_record_None_side_ids _ _ _ _ Hfirst).
Qed.

Lemma first_record_ignored name c evs :
  ignore name = true → first_record name c evs = None.
Proof.
  intros Hig. revert c. induction evs as [|s evs IH]; intros c; simpl; [done|].
  destruct (live s) eqn:Hl; [|apply IH].
  destruct (String.eqb_spec (sup_name s) name) as [Heq|_]; [|apply IH].
  unfold live in Hl. rewrite Heq, Hig in Hl. done.
Qed.

(** C4: a record whose full name, or whose substring after the final slash,
    is one of the eight denied names is skipped by the loop body of every
    category and role: the edge dict (every edge's source and destination
    list, and the set of edges) and the allocator are left as they were, and
    the finished aggregation holds no edge under that name. *)
Theorem ignored_record_contributes_nothing (rec : TopicInfo.t) :
  let name := TopicInfo.name rec in
  let denylist :=
    ["/rosout"; "/parameter_events"; "describe_parameters"; "get_parameter_types";
     "list_parameters"; "set_parameters"; "get_parameters"; "set_parameters_atomically"] in
  name ∈ denylist ∨ last_segment name ∈ denylist →
  ignore name = true
  ∧ (∀ colour side node_id edges st,
       add_record colour side node_id rec edges st = (Ok edges, st))
  ∧ (∀ args api st, ∃ edges st',
       aggregate args api (get_node_names api (Args.all args)) st = (Ok edges, st')
       ∧ dict_get name edges = None).
Proof.
  intros name denylist Hdenied.
  assert (ignore name = true) as Hig.
  { apply ignore_true. by rewrite !ignore_list_members. }
  split_and!; [done | |].
  - intros. by apply add_record_ignored.
  - intros args api st. destruct (aggregate_result args api st) as (d & Hrun & _ & Hget).
    eexists d, _. split; [exact Hrun|].
    rewrite Hget. unfold edge_after. by rewrite first_record_ignored.
Qed.

(** ** Rendering the connections of an edge *)

Lemma for_each_appends {A} (f : A → list DotCall) (body : A → M unit) (l : list A) st :
  (∀ x st, body x st = (Ok tt, mkState (counter st) (document st ++ f x))) →
  for_each l body st = (Ok tt, mkState (counter st) (document st ++ (l ≫= f))).
Proof.
  intros Hbody. revert st. induction l as [|x l IH]; intros [c doc]; simpl.
  - unfold mret, M_ret. by rewrite app_nil_r.
  - erewrite bind_ok by apply Hbody. rewrite IH. simpl. by rewrite app_assoc.
Qed.

Lemma label_of_code args e :
  label_of args e =
  let label := TopicInfo.name (Edge.topic e) in
  let label := if (1 <? length (Edge.src e))%nat
               then label +:+ "(" +:+ pretty (length (Edge.src e)) +:+ ")" else label in
  if Args.types args
  then label +:+ " [" +:+ default EmptyString (head (TopicInfo.types (Edge.topic e))) +:+ "]"
  else label.
Proof.
  unfold label_of. simpl.
  destruct (Nat.ltb_spec 1 (length (Edge.src e))); case_decide; first [done | lia].
Qed.

Lemma append_empty s : s +:+ EmptyString = s.
Proof.
  induction s as [|c s IH]; [done|].
  change (String c (s +:+ EmptyString) = String c s). by rewrite IH.
Qed.

Lemma append_assoc s1 s2 s3 : (s1 +:+ s2) +:+ s3 = s1 +:+ s2 +:+ s3.
Proof.
  induction s1 as [|c s1 IH]; [done|].
  change (String c ((s1 +:+ s2) +:+ s3) = String c (s1 +:+ s2 +:+ s3)). by rewrite IH.
Qed.

Lemma label_of_parts args e :
  label_of args e =
  TopicInfo.name (Edge.topic e)
  +:+ (if decide (1 < length (Edge.src e))
       then "(" +:+ pretty (length (Edge.src e)) +:+ ")" else EmptyString)
  +:+ (if Args.types args
       then " [" +:+ default EmptyString (head (TopicInfo.types (Edge.topic e))) +:+ "]"
       else EmptyString).
Proof.
  unfold label_of. simpl.
  case_decide; destruct (Args.types args); by rewrite ?append_empty, ?append_assoc.
Qed.

Lemma emit_connection_ok args e a b st :
  (Args.types args = true → TopicInfo.types (Edge.topic e) ≠ []) →
  emit_connection args e a b st =
  (Ok tt, mkState (counter st)
            (document st ++ [edge a b (label_of args e) (Edge.colour e) (Edge.colour e)
                               (length (Edge.src e))])).
Proof.
  intros Hty. unfold emit_connection. rewrite label_of_code. simpl.
  destruct (Args.types args).
  - destruct (TopicInfo.types (Edge.topic e)) as [|ty tys]; [by destruct Hty|]. done.
  - done.
Qed.

Lemma emit_connection_fail args e a b st :
  Args.types args = true → TopicInfo.types (Edge.topic e) = [] →
  emit_connection args e a b st = (Raise IndexError, st).
Proof. intros Hshow Hty. unfold emit_connection. by rewrite Hshow, Hty. Qed.

Lemma bind_singleton_fmap {A B} (g : A → B) (l : list A) :
  (l ≫= λ x, [g x]) = g <$> l.
Proof. induction l as [|x l IH]; [done|]. rewrite bind_cons, fmap_cons, IH. done. Qed.

Lemma fmap_list_prod {A B C} (g : A → B → C) (l : list A) (l' : list B) :
  (λ p : A * B, g p.1 p.2) <$> list_prod l l' = a ← l; g a <$> l'.
Proof.
  induction l as [|x l IH]; [done|]. rewrite bind_cons. simpl.
  rewrite fmap_app, IH. f_equal. by rewrite <- list_fmap_compose.
Qed.

Lemma emit_connections_ok args e st :
  (Args.types args = true → TopicInfo.types (Edge.topic e) ≠ []) →
  emit_connections args e st =
    (Ok tt, mkState (counter st) (document st ++ connections args e)).
Proof.
  intros Hty. unfold emit_connections, connections.
  rewrite (for_each_appends
             (λ a, (λ b, edge a b (label_of args e) (Edge.colour e) (Edge.colour e)
                           (length (Edge.src e))) <$> Edge.dst e)).
  - by rewrite (fmap_list_prod (λ a b, edge a b (label_of args e) (Edge.colour e)
                                     (Edge.colour e) (length (Edge.src e)))).
  - intros a st'. rewrite (for_each_appends (λ b, [edge a b (label_of args e) (Edge.colour e)
                                                     (Edge.colour e) (length (Edge.src e))])).
    + by rewrite bind_singleton_fmap.
    + intros b st''. by apply emit_connection_ok.
Qed.

Lemma connections_length args e :
  length (connections args e) = length (Edge.src e) * length (Edge.dst e).
Proof. unfold connections. by rewrite length_fmap, length_prod. Qed.

(** C2: the connections of an edge are written one per pair of the product of
    its source and destination lists.  Each carries the channel name as its
    label, followed by the source count in parentheses exactly when there is
    more than one source, and by the record's first declared type in brackets
    when types are shown; its colour and font colour are the edge's colour and
    its pen width is the source count. *)
Theorem connections_rendered (args : Args.t) (e : Edge.t) (st : State) :
  (Args.types args = true → TopicInfo.types (Edge.topic e) ≠ []) →
  emit_connections args e st =
    (Ok tt, mkState (counter st) (document st ++ connections args e))
  ∧ length (connections args e) = length (Edge.src e) * length (Edge.dst e)
  ∧ connections args e =
      (λ p : string * string,
         edge p.1 p.2
           (TopicInfo.name (Edge.topic e)
            +:+ (if decide (1 < length (Edge.src e))
                 then "(" +:+ pretty (length (Edge.src e)) +:+ ")" else EmptyString)
            +:+ (if Args.types args
                 then " [" +:+ default EmptyString (head (TopicInfo.types (Edge.topic e))) +:+ "]"
                 else EmptyString))
           (Edge.colour e) (Edge.colour e) (length (Edge.src e)))
        <$> list_prod (Edge.src e) (Edge.dst e).
Proof.
  intros Hty. split_and!.
  - by apply emit_connections_ok.
  - apply connections_length.
  - unfold connections. by rewrite label_of_parts.
Qed.

(** ** Unconnected edges *)

Lemma resolve_unconnected_off args e st :
  Args.unconnected args = false → resolve_unconnected args e st = (Ok e, st).
Proof. intros H. unfold resolve_unconnected. by rewrite H. Qed.

Lemma resolve_unconnected_on args e st :
  Args.unconnected args = true →
  resolve_unconnected args e st =
  (Ok (with_placeholders (counter st) e),
   mkState (counter st + placeholder_count e)
           (document st ++ placeholder_nodes (counter st) e)).
Proof.
  intros H. unfold resolve_unconnected, with_placeholders, placeholder_nodes, placeholder_count.
  rewrite H. destruct st as [c doc], e as [t [|s ss] [|d ds] i col]; simpl;
    unfold mbind, M_bind, mret, M_ret, get_id, emit, append_to; simpl;
    rewrite ?app_nil_r, <- ?app_assoc; repeat f_equal; lia.
Qed.

Lemma emit_connections_empty args e st :
  Edge.src e = [] ∨ Edge.dst e = [] → emit_connections args e st = (Ok tt, st).
Proof.
  unfold emit_connections. intros [->| ->]; [done|].
  revert st. induction (Edge.src e) as [|a l IH]; intros st; [done|].
  simpl. erewrite bind_ok by reflexivity. apply IH.
Qed.

(** C3: with [show_unconnected] on, an edge with an empty source list gets
    exactly one invisible placeholder node as its only source, an edge with
    an empty destination list exactly one as its only destination, both
    written before the connections, and the edge then renders at least one
    connection; with it off the edge is left as it is, and an edge with an
    empty side writes nothing. *)
Theorem unconnected_edges_resolved (args : Args.t) (e : Edge.t) (st : State) :
  (Args.types args = true → TopicInfo.types (Edge.topic e) ≠ []) →
  if Args.unconnected args then
    let e' := with_placeholders (counter st) e in
    resolve_unconnected args e st =
      (Ok e', mkState (counter st + placeholder_count e)
                      (document st ++ placeholder_nodes (counter st) e))
    ∧ (Edge.src e = [] →
         Edge.src e' = ["blank_r_" +:+ pretty (counter st)]
         ∧ node ("blank_r_" +:+ pretty (counter st)) None (Some "invis")
             ∈ placeholder_nodes (counter st) e)
    ∧ (Edge.src e ≠ [] → Edge.src e' = Edge.src e)
    ∧ (Edge.dst e = [] →
         ∃ blank, Edge.dst e' = [blank]
                  ∧ node blank None (Some "invis") ∈ placeholder_nodes (counter st) e)
    ∧ (Edge.dst e ≠ [] → Edge.dst e' = Edge.dst e)
    ∧ length (placeholder_nodes (counter st) e) = placeholder_count e
    ∧ render_edge args e st =
        (Ok tt, mkState (counter st + placeholder_count e)
                        (document st ++ placeholder_nodes (counter st) e ++ connections args e'))
    ∧ (1 ≤ length (connections args e'))%nat
  else
    resolve_unconnected args e st = (Ok e, st)
    ∧ (Edge.src e = [] ∨ Edge.dst e = [] →
         render_edge args e st = (Ok tt, st) ∧ connections args e = []).
Proof.
  intros Hty. destruct (Args.unconnected args) eqn:Hunc.
  - intros e'. split_and!.
    + by apply resolve_unconnected_on.
    + intros Hsrc. unfold e', with_placeholders, placeholder_nodes. rewrite Hsrc. simpl.
      split; [done|]. apply elem_of_cons. by left.
    + intros Hsrc. unfold e', with_placeholders. by destruct (Edge.src e).
    + intros Hdst. unfold e', with_placeholders, placeholder_nodes. rewrite Hdst. simpl.
      eexists. split; [done|]. apply elem_of_app. right. apply elem_of_cons. by left.
    + intros Hdst. unfold e', with_placeholders. by destruct (Edge.dst e).
    + unfold placeholder_nodes, placeholder_count. rewrite length_app.
      by destruct (Edge.src e), (Edge.dst e).
    + unfold render_edge. erewrite bind_ok by (by apply resolve_unconnected_on).
      etrans; [apply (emit_connections_ok args e' _ Hty)|].
      simpl. by rewrite <- app_assoc.
    + rewrite connections_length.
      unfold e', with_placeholders. simpl.
      destruct (Edge.src e), (Edge.dst e); simpl; lia.
  - split; [by apply resolve_unconnected_off|].
    intros Hempty. unfold render_edge.
    erewrite bind_ok by (by apply resolve_unconnected_off).
    split; [by apply emit_connections_empty|].
    unfold connections. apply nil_length_inv. rewrite length_fmap, length_prod.
    destruct Hempty as [-> | ->]; simpl; lia.
Qed.

(** ** One edge per channel name *)

Lemma dict_get_elem k e d : NoDup d.*1 → (k, e) ∈ d → dict_get k d = Some e.
Proof.
  induction d as [|[k' e'] d IH]; simpl; [by intros _ ?%elem_of_nil|].
  intros [Hnotin Hnd]%NoDup_cons [[= -> ->]|Hin]%elem_of_cons.
  - by rewrite String.eqb_refl.
  - destruct (String.eqb_spec k k') as [->|_]; [|by apply IH].
    destruct Hnotin. apply list_elem_of_fmap. by exists (k', e).
Qed.

Lemma dict_alter_app_new f k v d :
  dict_get k d = None → dict_alter f k (d ++ [(k, v)]) = d ++ [(k, f v)].
Proof.
  induction d as [|[k' e'] d IH]; simpl.
  - intros _. by rewrite String.eqb_refl.
  - destruct (String.eqb k k'); [done|]. intros H. by rewrite IH.
Qed.

Lemma supplied_stream args api s :
  s ∈ supplied args api →
  let full_name := NodeName.full_name (sup_node s) in
  let all := Args.all args in
  (selected "topics" args = true ∧ sup_colour s = "blue"
   ∧ (sup_side s = Dst ∧ sup_rec s ∈ get_subscriber_info api full_name all
      ∨ sup_side s = Src ∧ sup_rec s ∈ get_publisher_info api full_name all))
  ∨ (selected "services" args = true ∧ sup_colour s = "orange"
     ∧ (sup_side s = Src ∧ sup_rec s ∈ get_service_client_info api full_name all
        ∨ sup_side s = Dst ∧ sup_rec s ∈ get_service_server_info api full_name all))
  ∨ (selected "actions" args = true ∧ sup_colour s = "olive"
     ∧ (sup_side s = Src ∧ sup_rec s ∈ get_action_client_info api full_name all
        ∨ sup_side s = Dst ∧ sup_rec s ∈ get_action_server_info api full_name all)).
Proof.
  unfold supplied. intros (n & Hs & Hn)%list_elem_of_bind. clear Hn.
  unfold supplied_node in Hs. simpl.
  apply elem_of_app in Hs as [Hs|Hs]; [|apply elem_of_app in Hs as [Hs|Hs]].
  - left. destruct (selected "topics" args); [|by apply elem_of_nil in Hs].
    apply elem_of_app in Hs as [(r & -> & Hr)%list_elem_of_fmap|(r & -> & Hr)%list_elem_of_fmap];
      simpl; eauto 10.
  - right; left. destruct (selected "services" args); [|by apply elem_of_nil in Hs].
    apply elem_of_app in Hs as [(r & -> & Hr)%list_elem_of_fmap|(r & -> & Hr)%list_elem_of_fmap];
      simpl; eauto 10.
  - right; right. destruct (selected "actions" args); [|by apply elem_of_nil in Hs].
    apply elem_of_app in Hs as [(r & -> & Hr)%list_elem_of_fmap|(r & -> & Hr)%list_elem_of_fmap];
      simpl; eauto 10.
Qed.

Lemma edge_after_topic_name name c evs e :
  edge_after name c evs = Some e → TopicInfo.name (Edge.topic e) = name.
Proof.
  unfold edge_after. destruct (first_record name c evs) as [[s k]|] eqn:Hfirst; [|done].
  intros [= <-]. simpl. by apply first_record_Some in Hfirst as (? & ? & _ & _ & Hn & _).
Qed.

(** C5: the aggregator is one loop over the supplied records, and after every
    prefix of them the dict holds at most one edge per channel name, each
    filed under its own record's name, whatever the category; a live record
    with a new name appends an edge seeded with that record, the identifier
    just allocated and the colour of the loop that supplied it, and a live
    record with a known name reuses the stored edge, whatever its colour;
    the colour is blue for both topic roles, orange for both service roles
    and olive for both action roles. *)
Theorem one_edge_per_name (args : Args.t) (api : Discovery) (st : State) :
  aggregate args api (get_node_names api (Args.all args)) st
    = for_fold (supplied args api) add_supplied [] st
  ∧ (∀ pre post, supplied args api = pre ++ post →
       ∃ edges st', for_fold pre add_supplied [] st = (Ok edges, st')
                    ∧ NoDup edges.*1
                    ∧ ∀ k e, (k, e) ∈ edges → TopicInfo.name (Edge.topic e) = k)
  ∧ (∀ colour side node_id rec edges st0,
       ignore (TopicInfo.name rec) = false →
       dict_get (TopicInfo.name rec) edges = None →
       add_record colour side node_id rec edges st0 =
       (Ok (edges ++ [(TopicInfo.name rec,
                       append_to side node_id
                         (Edge.mk rec [] [] ("edge_" +:+ pretty (counter st0)) colour))]),
        mkState (S (counter st0)) (document st0)))
  ∧ (∀ colour side node_id rec edges st0 e,
       ignore (TopicInfo.name rec) = false →
       dict_get (TopicInfo.name rec) edges = Some e →
       ∃ edges', add_record colour side node_id rec edges st0 =
                   (Ok edges', mkState (S (counter st0)) (document st0))
                 ∧ edges'.*1 = edges.*1
                 ∧ dict_get (TopicInfo.name rec) edges' = Some (append_to side node_id e))
  ∧ (∀ s, s ∈ supplied args api →
       let full_name := NodeName.full_name (sup_node s) in
       let all := Args.all args in
       (selected "topics" args = true ∧ sup_colour s = "blue"
        ∧ (sup_side s = Dst ∧ sup_rec s ∈ get_subscriber_info api full_name all
           ∨ sup_side s = Src ∧ sup_rec s ∈ get_publisher_info api full_name all))
       ∨ (selected "services" args = true ∧ sup_colour s = "orange"
          ∧ (sup_side s = Src ∧ sup_rec s ∈ get_service_client_info api full_name all
             ∨ sup_side s = Dst ∧ sup_rec s ∈ get_service_server_info api full_name all))
       ∨ (selected "actions" args = true ∧ sup_colour s = "olive"
          ∧ (sup_side s = Src ∧ sup_rec s ∈ get_action_client_info api full_name all
             ∨ sup_side s = Dst ∧ sup_rec s ∈ get_action_server_info api full_name all))).
Proof.
  split_and!.
  - apply aggregate_supplied.
  - intros pre post _. destruct st as [c doc].
    destruct (fold_supplied pre c doc) as (d & Hrun & Hnd & Hget).
    exists d, (mkState (c + live_count pre) doc). split_and!; [done | done |].
    intros k e Hin. apply (edge_after_topic_name k c pre).
    rewrite <- Hget. by apply dict_get_elem.
  - intros colour side node_id rec edges st0 Hig Hnone.
    rewrite add_record_live by done. unfold setdefault. rewrite Hnone.
    by rewrite dict_alter_app_new.
  - intros colour side node_id rec edges st0 e Hig Hsome.
    rewrite add_record_live by done. eexists. split; [done|].
    unfold setdefault. rewrite Hsome. split; [apply dict_alter_keys|].
    by rewrite dict_get_alter_eq, Hsome.
  - apply supplied_stream.
Qed.

(** ** What a computation writes *)

Lemma writes_ret {A} P (a : A) : writes P (mret a).
Proof. intros st. exists []. by rewrite app_nil_r. Qed.

Lemma writes_raise {A} P e : writes P (raise (A:=A) e).
Proof. intros st. exists []. by rewrite app_nil_r. Qed.

Lemma writes_emit P c : P c → writes P (emit c).
Proof. intros Hc st. exists [c]. split; [done|]. by apply Forall_singleton. Qed.

Lemma writes_get_id P prefix : writes P (get_id prefix).
Proof. intros st. exists []. by rewrite app_nil_r. Qed.

Lemma writes_bind {A B} P (m : M A) (k : A → M B) :
  writes P m → (∀ a, writes P (k a)) → writes P (m ≫= k).
Proof.
  intros Hm Hk st. destruct (Hm st) as (calls & Hdoc & Hcalls).
  unfold mbind, M_bind. destruct (m st) as [[a|e] st1]; simpl in *.
  - destruct (Hk a st1) as (calls' & Hdoc' & Hcalls'). exists (calls ++ calls').
    rewrite Hdoc', Hdoc, app_assoc. split; [done|]. by apply Forall_app.
  - by exists calls.
Qed.

Lemma writes_for_each {A} P (l : list A) (body : A → M unit) :
  (∀ x, writes P (body x)) → writes P (for_each l body).
Proof.
  intros Hbody. induction l as [|x l IH]; simpl.
  - apply writes_ret.
  - apply writes_bind; [apply Hbody | intros _; apply IH].
Qed.

Lemma emit_connection_writes args e a b :
  writes (drawn_from args (Edge.topic e) (Edge.colour e)) (emit_connection args e a b).
Proof.
  intros st. unfold emit_connection, mbind, M_bind, mret, M_ret, raise, emit.
  destruct (Args.types args) eqn:Hshow.
  - destruct (TopicInfo.types (Edge.topic e)) as [|ty tys] eqn:Hty; simpl.
    + exists []. by rewrite app_nil_r.
    + eexists [_]. split; [done|]. apply Forall_singleton. simpl.
      split_and!; [done | done |]. intros _. eexists _, ty. rewrite Hty. split; reflexivity.
  - eexists [_]. split; [done|]. apply Forall_singleton. simpl.
    split_and!; [done | done |]. intros ?. congruence.
Qed.

Lemma emit_connections_writes args e :
  writes (drawn_from args (Edge.topic e) (Edge.colour e)) (emit_connections args e).
Proof.
  unfold emit_connections. apply writes_for_each. intros a.
  apply writes_for_each. intros b. apply emit_connection_writes.
Qed.

Lemma placeholder_nodes_drawn args rec colour c e :
  Forall (drawn_from args rec colour) (placeholder_nodes c e).
Proof.
  unfold placeholder_nodes. apply Forall_app.
  by destruct (Edge.src e), (Edge.dst e); repeat constructor.
Qed.

Lemma render_edge_writes args e :
  writes (drawn_from args (Edge.topic e) (Edge.colour e)) (render_edge args e).
Proof.
  intros st. unfold render_edge. destruct (Args.unconnected args) eqn:Hunc.
  - erewrite bind_ok by (by apply resolve_unconnected_on).
    destruct (emit_connections_writes args (with_placeholders (counter st) e)
                (mkState (counter st + placeholder_count e)
                         (document st ++ placeholder_nodes (counter st) e)))
      as (calls & Hdoc & Hcalls).
    exists (placeholder_nodes (counter st) e ++ calls). rewrite Hdoc. simpl.
    rewrite app_assoc. split; [done|].
    apply Forall_app. split; [apply placeholder_nodes_drawn | done].
  - erewrite bind_ok by (by apply resolve_unconnected_off).
    apply emit_connections_writes.
Qed.

(** ** The first record of a name *)

(** C9: the edge of a channel name keeps the record, the identifier and the
    colour of the first live record processed under that name, whatever the
    category or role of the records that follow; each later record of that
    name only extends the source or the destination list; and every
    connection rendered for the edge is drawn in the first record's colour
    and, when types are shown, annotated with the first record's first type. *)
Theorem first_record_fixes_edge (args : Args.t) (api : Discovery) (st : State)
    (pre : list Supplied) (s : Supplied) (post : list Supplied) :
  supplied args api = pre ++ s :: post →
  live s = true →
  (∀ s', s' ∈ pre → live s' = true → sup_name s' ≠ sup_name s) →
  ∃ edges st' e,
    aggregate args api (get_node_names api (Args.all args)) st = (Ok edges, st')
    ∧ dict_get (sup_name s) edges = Some e
    ∧ Edge.topic e = sup_rec s
    ∧ Edge.id e = "edge_" +:+ pretty (counter st + live_count pre)
    ∧ Edge.colour e = sup_colour s
    ∧ (∀ colour side node_id rec d0 st0 e0,
         TopicInfo.name rec = sup_name s →
         dict_get (sup_name s) d0 = Some e0 →
         ∃ d1 st1 e1,
           add_record colour side node_id rec d0 st0 = (Ok d1, st1)
           ∧ dict_get (sup_name s) d1 = Some e1
           ∧ Edge.topic e1 = Edge.topic e0
           ∧ Edge.id e1 = Edge.id e0
           ∧ Edge.colour e1 = Edge.colour e0
           ∧ match side with
             | Src => Edge.src e1 = Edge.src e0 ++ [node_id] ∧ Edge.dst e1 = Edge.dst e0
             | Dst => Edge.src e1 = Edge.src e0 ∧ Edge.dst e1 = Edge.dst e0 ++ [node_id]
             end)
    ∧ writes (drawn_from args (sup_rec s) (sup_colour s)) (render_edge args e).
Proof.
  intros Hsplit Hlive Hfirst.
  destruct (aggregate_result args api st) as (d & Hrun & _ & Hget).
  specialize (Hget (sup_name s)). unfold edge_after in Hget.
  rewrite Hsplit, first_record_first in Hget by done. simpl in Hget.
  eexists d, _, _. split_and!; [exact Hrun | exact Hget | done | done | done | |].
  - intros colour side node_id rec d0 st0 e0 Hname Hsome.
    assert (ignore (TopicInfo.name rec) = false) as Hig.
    { rewrite Hname. unfold live in Hlive. by destruct (ignore (sup_name s)). }
    rewrite add_record_live by done. rewrite Hname.
    eexists _, _, (append_to side node_id e0). split; [done|].
    unfold setdefault. rewrite Hsome, dict_get_alter_eq, Hsome.
    by destruct side.
  - apply (render_edge_writes args
             (Edge.mk (sup_rec s) (side_ids Src (sup_name s) (pre ++ s :: post))
                (side_ids Dst (sup_name s) (pre ++ s :: post))
                ("edge_" +:+ pretty (counter st + live_count pre)) (sup_colour s))).
Qed.

(** ** Namespaces *)

Lemma foldl_insert_lookup {V} (F : string → V) (l : list string) (m : gmap string V) ns :
  foldl (λ g k, <[k := F k]> g) m l !! ns = if decide (ns ∈ l) then Some (F ns) else m !! ns.
Proof.
  revert m. induction l as [|k l IH]; intros m.
  - by destruct (decide (ns ∈ [])) as [?%elem_of_nil|].
  - change (foldl (λ g k, <[k := F k]> g) (<[k := F k]> m) l !! ns
            = if decide (ns ∈ k :: l) then Some (F ns) else m !! ns).
    rewrite IH. destruct (decide (ns ∈ l)) as [Hin|Hnotin].
    + rewrite decide_True; [done | by apply elem_of_cons; right].
    + destruct (decide (ns = k)) as [->|Hne].
      * rewrite lookup_insert_eq, decide_True; [done | by apply elem_of_cons; left].
      * rewrite lookup_insert_ne by done.
        rewrite decide_False; [done | by intros [?|?]%elem_of_cons].
Qed.

Lemma group_nodes_lookup (namespaces : gset string) node_names ns :
  group_nodes namespaces node_names !! ns =
  if decide (ns ∈ namespaces)
  then Some (filter (λ n, ns = NodeName.namespace n) node_names) else None.
Proof.
  unfold group_nodes.
  rewrite (foldl_insert_lookup (λ k, filter (λ n, k = NodeName.namespace n) node_names)).
  destruct (decide (ns ∈ namespaces)) as [Hin|Hnotin].
  - rewrite decide_True; [done | by apply elem_of_elements].
  - rewrite decide_False; [done | by rewrite elem_of_elements].
Qed.

Lemma truthy_empty ns : truthy ns = false ↔ ns = EmptyString.
Proof. by destruct ns. Qed.

Lemma write_namespace_block grouped_node ns members st :
  grouped_node !! ns = Some members →
  ∃ block st',
    write_namespace grouped_node ns st = (Ok tt, st')
    ∧ document st' = document st ++ block
    ∧ namespace_block ns members block.
Proof.
  intros Hlookup. unfold write_namespace, namespace_block. rewrite Hlookup.
  destruct st as [c doc]. destruct ns as [|ch ns]; simpl.
  - erewrite bind_ok by reflexivity. erewrite bind_ok by reflexivity.
    erewrite bind_ok by apply for_each_emit.
    eexists _, _. split; [done|]. split; [done|]. done.
  - erewrite bind_ok by reflexivity. erewrite bind_ok by reflexivity.
    erewrite bind_ok by apply for_each_emit.
    eexists _, _. split; [done|]. simpl. rewrite <- !app_assoc. split; [done|].
    by eexists.
Qed.

Lemma write_namespaces_blocks grouped_node (F : string → list NodeName.t) l st :
  (∀ ns, ns ∈ l → grouped_node !! ns = Some (F ns)) →
  ∃ blocks st',
    for_each l (write_namespace grouped_node) st = (Ok tt, st')
    ∧ document st' = document st ++ concat blocks
    ∧ Forall2 (λ ns block, namespace_block ns (F ns) block) l blocks.
Proof.
  revert st. induction l as [|ns l IH]; intros st Hlookup; simpl.
  - exists [], st. simpl. rewrite app_nil_r. by split_and!.
  - destruct (write_namespace_block grouped_node ns (F ns) st) as (block & st1 & Hrun & Hdoc & Hblock).
    { apply Hlookup, elem_of_cons. by left. }
    destruct (IH st1) as (blocks & st2 & Hrun' & Hdoc' & Hblocks).
    { intros ns' Hin. apply Hlookup, elem_of_cons. by right. }
    exists (block :: blocks), st2. erewrite bind_ok by exact Hrun.
    split; [done|]. simpl. rewrite Hdoc', Hdoc, app_assoc. split; [done|].
    by constructor.
Qed.

(** C6: the grouping maps every namespace observed in the node list, and no
    other key, to the nodes of that namespace in input order; the namespaces
    are rendered once each, a non-empty one as a cluster labelled with it
    that holds one entry (identifier and name) per member, the empty one as
    its members' entries without a cluster. *)
Theorem namespaces_grouped_and_clustered (args : Args.t) (api : Discovery) (st : State) :
  let node_names := get_node_names api (Args.all args) in
  let namespaces : gset string := list_to_set (NodeName.namespace <$> node_names) in
  let grouped_node := group_nodes namespaces node_names in
  let members ns := filter (λ n, ns = NodeName.namespace n) node_names in
  (∀ ns, ns ∈ namespaces ↔ ∃ n, n ∈ node_names ∧ NodeName.namespace n = ns)
  ∧ (∀ ns, grouped_node !! ns = if decide (ns ∈ namespaces) then Some (members ns) else None)
  ∧ NoDup (elements namespaces)
  ∧ (∀ ns, ns ∈ elements namespaces ↔ ns ∈ namespaces)
  ∧ ∃ blocks st',
      for_each (elements namespaces) (write_namespace grouped_node) st = (Ok tt, st')
      ∧ document st' = document st ++ concat blocks
      ∧ Forall2 (λ ns block, namespace_block ns (members ns) block)
                (elements namespaces) blocks.
Proof.
  intros node_names namespaces grouped_node members. split_and!.
  - intros ns. unfold namespaces. rewrite elem_of_list_to_set, list_elem_of_fmap.
    split; intros (n & H1 & H2); exists n; by split.
  - intros ns. apply group_nodes_lookup.
  - apply NoDup_elements.
  - intros ns. apply elem_of_elements.
  - apply write_namespaces_blocks. intros ns Hin.
    unfold grouped_node. rewrite group_nodes_lookup.
    rewrite decide_True; [done | by apply elem_of_elements].
Qed.

(** ** The first declared type *)

Lemma for_each_ok {A} (l : list A) (body : A → M unit) :
  (∀ x, x ∈ l → succeeds (body x)) → succeeds (for_each l body).
Proof.
  induction l as [|x l IH]; intros Hbody st; simpl.
  - by eexists tt, st.
  - destruct (Hbody x (list_elem_of_here x l) st) as ([] & st1 & Hrun).
    erewrite bind_ok by exact Hrun. apply IH. intros y Hy. apply Hbody. by apply elem_of_cons; right.
Qed.

Lemma render_edge_ok args e :
  (Args.types args = true → TopicInfo.types (Edge.topic e) ≠ []) →
  succeeds (render_edge args e).
Proof.
  intros Hty st. unfold render_edge. destruct (Args.unconnected args) eqn:Hunc.
  - erewrite bind_ok by (by apply resolve_unconnected_on).
    rewrite emit_connections_ok by done. by eexists _, _.
  - erewrite bind_ok by (by apply resolve_unconnected_off).
    rewrite emit_connections_ok by done. by eexists _, _.
Qed.

Lemma emit_connections_fail args e st :
  Args.types args = true → Edge.src e ≠ [] → Edge.dst e ≠ [] →
  TopicInfo.types (Edge.topic e) = [] →
  emit_connections args e st = (Raise IndexError, st).
Proof.
  intros Hshow Hsrc Hdst Hty. unfold emit_connections.
  destruct (Edge.src e) as [|a l]; [done|]. destruct (Edge.dst e) as [|b l']; [done|].
  simpl. erewrite bind_raise; [done|].
  erewrite bind_raise; [done|]. by apply emit_connection_fail.
Qed.

Lemma edge_after_supplied name c evs e :
  edge_after name c evs = Some e → ∃ s, s ∈ evs ∧ Edge.topic e = sup_rec s.
Proof.
  unfold edge_after. destruct (first_record name c evs) as [[s k]|] eqn:Hfirst; [|done].
  intros [= <-]. exists s. split; [|done].
  apply first_record_Some in Hfirst as (pre & post & -> & _).
  apply elem_of_app. right. by apply elem_of_cons; left.
Qed.

Lemma main_ok args api :
  (∀ s, s ∈ supplied args api → TopicInfo.types (sup_rec s) ≠ []) →
  succeeds (main args api).
Proof.
  intros Htyped st. unfold main.
  erewrite bind_ok by reflexivity.
  erewrite bind_ok by apply write_legend_eq.
  destruct (write_namespaces_blocks
              (group_nodes (list_to_set (NodeName.namespace <$> get_node_names api (Args.all args)))
                 (get_node_names api (Args.all args)))
              (λ ns, filter (λ n, ns = NodeName.namespace n) (get_node_names api (Args.all args)))
              (elements (list_to_set (NodeName.namespace <$> get_node_names api (Args.all args))
                           : gset string))
              (mkState (3 + counter (emit (begin_graph "LR" true) st).2)
                 (document (emit (begin_graph "LR" true) st).2
                    ++ legend (counter (emit (begin_graph "LR" true) st).2))))
    as (blocks & st1 & Hns & _).
  { intros ns Hin. rewrite group_nodes_lookup.
    rewrite decide_True; [done | by apply elem_of_elements]. }
  erewrite bind_ok by exact Hns.
  destruct (aggregate_result args api st1) as (d & Hagg & Hnd & Hget).
  erewrite bind_ok by exact Hagg.
  destruct (for_each_ok (values d) (render_edge args)) with
    (st := mkState (counter st1 + live_count (supplied args api)) (document st1))
    as ([] & st2 & Hrender).
  { unfold values. intros e ([k e'] & -> & Hin)%list_elem_of_fmap. simpl.
    apply render_edge_ok. intros _.
    apply dict_get_elem in Hin; [|done]. rewrite Hget in Hin.
    apply edge_after_supplied in Hin as (s & Hs & ->). by apply Htyped. }
  erewrite bind_ok by exact Hrender. by eexists _, _.
Qed.

(** C10: with types shown, rendering an edge that has at least one
    connection reads the first element of its record's type list: the
    connections are written when the list has one, and [IndexError] is raised
    before anything is written when it has none.  A pass over records that
    all declare a type therefore returns normally, and the pass over a
    publisher record with an empty type list raises [IndexError] and never
    closes the graph. *)
Theorem first_type_indexing (args : Args.t) (api : Discovery) (c : nat) :
  (∀ e st,
     Args.types args = true → Edge.src e ≠ [] → Edge.dst e ≠ [] →
     match TopicInfo.types (Edge.topic e) !! 0 with
     | Some _ =>
         emit_connections args e st =
           (Ok tt, mkState (counter st) (document st ++ connections args e))
     | None => emit_connections args e st = (Raise IndexError, st)
     end)
  ∧ ((∀ s, s ∈ supplied args api → TopicInfo.types (sup_rec s) ≠ []) →
     ∃ doc, run c args api = (Ok tt, doc))
  ∧ (∃ s, s ∈ supplied sample_args untyped_api ∧ TopicInfo.types (sup_rec s) = [])
  ∧ (∃ doc, run c sample_args untyped_api = (Raise IndexError, doc) ∧ end_graph ∉ doc).
Proof.
  split_and!.
  - intros e st Hshow Hsrc Hdst.
    destruct (TopicInfo.types (Edge.topic e)) as [|ty tys] eqn:Hty; simpl.
    + by apply emit_connections_fail.
    + apply emit_connections_ok. intros _. by rewrite Hty.
  - intros Htyped. destruct (main_ok args api Htyped (mkState c [])) as ([] & st' & Hrun).
    exists (document st'). unfold run. by rewrite Hrun.
  - exists (mkSupplied "blue" Src (NodeName.mk EmptyString "talker" "/talker" "node_1")
              (TopicInfo.mk "/chatter" [])).
    split; [|done]. vm_compute. apply list_elem_of_here.
  - eexists. split.
    + vm_compute. reflexivity.
    + intros Hin. repeat (apply elem_of_cons in Hin as [Heq|Hin]; [discriminate Heq|]).
      by apply elem_of_nil in Hin.
Qed.

(** ** Two passes over one snapshot *)

Lemma id_rel_refl a : id_rel a a.
Proof. by left. Qed.

Lemma id_rel_fresh prefix (n m : nat) : id_rel (prefix +:+ pretty n) (prefix +:+ pretty m).
Proof. right. by exists prefix, n, m. Qed.

Lemma Forall2_id_rel_refl l : Forall2 id_rel l l.
Proof. induction l; constructor; [apply id_rel_refl | done]. Qed.

Lemma Forall2_eq_refl {A} (l : list A) : Forall2 eq l l.
Proof. induction l; by constructor. Qed.

Lemma M_rel_ret {A} (R : A → A → Prop) a b : R a b → M_rel R (mret a) (mret b).
Proof. intros HR st1 st2 Hdoc. by split. Qed.

Lemma M_rel_raise {A} (R : A → A → Prop) e : M_rel R (raise e) (raise e).
Proof. intros st1 st2 Hdoc. by split. Qed.

Lemma M_rel_bind {A B} (R : A → A → Prop) (R' : B → B → Prop)
    (m1 m2 : M A) (k1 k2 : A → M B) :
  M_rel R m1 m2 → (∀ a b, R a b → M_rel R' (k1 a) (k2 b)) →
  M_rel R' (m1 ≫= k1) (m2 ≫= k2).
Proof.
  intros Hm Hk st1 st2 Hdoc. destruct (Hm st1 st2 Hdoc) as [Hdoc' Hres].
  unfold mbind, M_bind.
  destruct (m1 st1) as [[a|e1] st1'], (m2 st2) as [[b|e2] st2']; simpl in *; try done.
  by apply Hk.
Qed.

Lemma M_rel_get_id prefix : M_rel id_rel (get_id prefix) (get_id prefix).
Proof. intros st1 st2 Hdoc. split; [done | apply id_rel_fresh]. Qed.

Lemma M_rel_emit c1 c2 : call_rel c1 c2 → M_rel eq (emit c1) (emit c2).
Proof.
  intros Hc st1 st2 Hdoc. split; [|done]. simpl.
  apply Forall2_app; [done | by constructor].
Qed.

Lemma M_rel_for_each {A} (R : A → A → Prop) (l1 l2 : list A) (body1 body2 : A → M unit) :
  Forall2 R l1 l2 →
  (∀ x y, R x y → M_rel eq (body1 x) (body2 y)) →
  M_rel eq (for_each l1 body1) (for_each l2 body2).
Proof.
  intros Hl Hbody. induction Hl as [|x y l1 l2 Hxy Hl IH]; simpl.
  - by apply M_rel_ret.
  - eapply M_rel_bind; [by apply Hbody | intros _ _ _; apply IH].
Qed.

Lemma M_rel_for_fold {A B} (R : B → B → Prop) (l : list A) (body : A → B → M B) a b :
  (∀ x a b, R a b → M_rel R (body x a) (body x b)) →
  R a b → M_rel R (for_fold l body a) (for_fold l body b).
Proof.
  intros Hbody. revert a b. induction l as [|x l IH]; intros a b Hab; simpl.
  - by apply M_rel_ret.
  - eapply M_rel_bind; [by apply Hbody | apply IH].
Qed.

Lemma write_legend_rel : M_rel eq write_legend write_legend.
Proof.
  unfold write_legend.
  eapply M_rel_bind; [apply M_rel_get_id|]. intros cl1 cl2 Hcl.
  eapply M_rel_bind; [apply M_rel_emit; by constructor|]. intros _ _ _.
  eapply M_rel_bind; [apply M_rel_get_id|]. intros k1 k2 Hk.
  eapply M_rel_bind; [apply M_rel_get_id|]. intros k1' k2' Hk'.
  do 5 (eapply M_rel_bind;
        [apply M_rel_emit, call_rel_write;
         repeat first [apply Forall2_nil_2 | apply Forall2_cons_2 | apply frag_rel_lit
                      | apply frag_rel_ref; assumption]
        | intros _ _ _]).
  apply M_rel_emit. constructor.
Qed.

Lemma write_namespace_rel grouped_node ns :
  M_rel eq (write_namespace grouped_node ns) (write_namespace grouped_node ns).
Proof.
  unfold write_namespace. eapply M_rel_bind with (R := eq).
  { destruct (truthy ns); [|by apply M_rel_ret].
    eapply M_rel_bind; [apply M_rel_get_id|]. intros c1 c2 Hc.
    apply M_rel_emit. by constructor. }
  intros _ _ _. eapply M_rel_bind with (R := eq).
  { destruct (grouped_node !! ns); [by apply M_rel_ret | apply M_rel_raise]. }
  intros members ? <-. eapply M_rel_bind with (R := eq).
  { apply M_rel_for_each with (R := eq); [apply Forall2_eq_refl|].
    intros n ? <-. apply M_rel_emit. constructor. apply id_rel_refl. }
  intros _ _ _. destruct (truthy ns); [|by apply M_rel_ret].
  apply M_rel_emit. constructor.
Qed.

Lemma dict_rel_get k d1 d2 :
  dict_rel d1 d2 →
  match dict_get k d1, dict_get k d2 with
  | Some e1, Some e2 => edge_rel e1 e2
  | None, None => True
  | _, _ => False
  end.
Proof.
  intros Hd. induction Hd as [|[k1 e1] [k2 e2] d1 d2 [Hk He] Hd IH]; simpl in *; [done|].
  subst k2. by destruct (String.eqb k k1).
Qed.

Lemma dict_rel_setdefault k v1 v2 d1 d2 :
  dict_rel d1 d2 → edge_rel v1 v2 → dict_rel (setdefault k v1 d1) (setdefault k v2 d2).
Proof.
  intros Hd Hv. unfold setdefault. pose proof (dict_rel_get k d1 d2 Hd) as Hget.
  destruct (dict_get k d1), (dict_get k d2); try done.
  apply Forall2_app; [done|]. constructor; [by split | constructor].
Qed.

Lemma dict_rel_alter f1 f2 k d1 d2 :
  (∀ e1 e2, edge_rel e1 e2 → edge_rel (f1 e1) (f2 e2)) →
  dict_rel d1 d2 → dict_rel (dict_alter f1 k d1) (dict_alter f2 k d2).
Proof.
  intros Hf Hd. induction Hd as [|[k1 e1] [k2 e2] d1 d2 [Hk He] Hd IH]; simpl in *.
  - constructor.
  - subst k2. destruct (String.eqb k k1); constructor; simpl; auto.
Qed.

Lemma append_to_rel side x y e1 e2 :
  id_rel x y → edge_rel e1 e2 → edge_rel (append_to side x e1) (append_to side y e2).
Proof.
  intros Hxy (Htopic & Hcolour & Hid & Hsrc & Hdst).
  destruct side; simpl; (split_and!; simpl; [done | done | done | |]); try done;
    (apply Forall2_app; [done | constructor; [done | constructor]]).
Qed.

Lemma add_record_rel colour side node_id rec d1 d2 :
  dict_rel d1 d2 →
  M_rel dict_rel (add_record colour side node_id rec d1) (add_record colour side node_id rec d2).
Proof.
  intros Hd st1 st2 Hdoc. destruct (ignore (TopicInfo.name rec)) eqn:Hig.
  - rewrite !add_record_ignored by done. by split.
  - rewrite !add_record_live by done. split; [done|]. simpl.
    apply dict_rel_alter; [intros; apply append_to_rel; [apply id_rel_refl | done]|].
    apply dict_rel_setdefault; [done|].
    split_and!; simpl; [done | done | apply id_rel_fresh | constructor | constructor].
Qed.

Lemma aggregate_node_rel args api n d1 d2 :
  dict_rel d1 d2 → M_rel dict_rel (aggregate_node args api n d1) (aggregate_node args api n d2).
Proof.
  intros Hd. unfold aggregate_node.
  eapply M_rel_bind with (R := dict_rel).
  { destruct (selected "topics" args); [|by apply M_rel_ret].
    eapply M_rel_bind with (R := dict_rel);
      [|intros ???]; apply M_rel_for_fold; try done; intros; by apply add_record_rel. }
  intros d1' d2' Hd'. eapply M_rel_bind with (R := dict_rel).
  { destruct (selected "services" args); [|by apply M_rel_ret].
    eapply M_rel_bind with (R := dict_rel);
      [|intros ???]; apply M_rel_for_fold; try done; intros; by apply add_record_rel. }
  intros d1'' d2'' Hd''.
  destruct (selected "actions" args); [|by apply M_rel_ret].
  eapply M_rel_bind with (R := dict_rel);
    [|intros ???]; apply M_rel_for_fold; try done; intros; by apply add_record_rel.
Qed.

Lemma Forall2_is_empty {A} (R : A → A → Prop) l1 l2 :
  Forall2 R l1 l2 → is_empty l1 = is_empty l2.
Proof. by intros []. Qed.

Lemma resolve_unconnected_rel args e1 e2 :
  edge_rel e1 e2 →
  M_rel edge_rel (resolve_unconnected args e1) (resolve_unconnected args e2).
Proof.
  intros He. unfold resolve_unconnected.
  eapply M_rel_bind with (R := edge_rel).
  { destruct He as (? & ? & ? & Hsrc & ?).
    rewrite (Forall2_is_empty _ _ _ Hsrc).
    destruct (Args.unconnected args && is_empty (Edge.src e2)); [|by apply M_rel_ret].
    eapply M_rel_bind; [apply M_rel_get_id|]. intros b1 b2 Hb.
    eapply M_rel_bind; [apply M_rel_emit; by constructor|]. intros _ _ _.
    apply M_rel_ret. by apply append_to_rel. }
  intros e1' e2' He'. pose proof He' as (? & ? & ? & ? & Hdst).
  rewrite (Forall2_is_empty _ _ _ Hdst).
  destruct (Args.unconnected args && is_empty (Edge.dst e2')); [|by apply M_rel_ret].
  eapply M_rel_bind; [apply M_rel_get_id|]. intros b1 b2 Hb.
  eapply M_rel_bind; [apply M_rel_emit; by constructor|]. intros _ _ _.
  apply M_rel_ret. by apply append_to_rel.
Qed.

Lemma emit_connection_rel args e1 e2 a1 a2 b1 b2 :
  edge_rel e1 e2 → id_rel a1 a2 → id_rel b1 b2 →
  M_rel eq (emit_connection args e1 a1 b1) (emit_connection args e2 a2 b2).
Proof.
  intros (Htopic & Hcolour & _ & Hsrc & _) Ha Hb. unfold emit_connection.
  rewrite Htopic, Hcolour, (Forall2_length _ _ _ Hsrc).
  eapply M_rel_bind with (R := eq).
  { destruct (Args.types args); [|by apply M_rel_ret].
    destruct (TopicInfo.types (Edge.topic e2) !! 0); [by apply M_rel_ret | apply M_rel_raise]. }
  intros label ? <-. apply M_rel_emit. by constructor.
Qed.

Lemma render_edge_rel args e1 e2 :
  edge_rel e1 e2 → M_rel eq (render_edge args e1) (render_edge args e2).
Proof.
  intros He. unfold render_edge.
  eapply M_rel_bind; [by apply resolve_unconnected_rel|].
  intros e1' e2' He'. unfold emit_connections.
  pose proof He' as (_ & _ & _ & Hsrc & Hdst).
  eapply M_rel_for_each; [exact Hsrc|]. intros a1 a2 Ha.
  eapply M_rel_for_each; [exact Hdst|]. intros b1 b2 Hb.
  by apply emit_connection_rel.
Qed.

Lemma main_rel args api : M_rel eq (main args api) (main args api).
Proof.
  unfold main.
  eapply M_rel_bind; [apply M_rel_emit; constructor|]. intros _ _ _.
  eapply M_rel_bind; [apply write_legend_rel|]. intros _ _ _.
  eapply M_rel_bind.
  { apply M_rel_for_each with (R := eq); [apply Forall2_eq_refl|].
    intros ns ? <-. apply write_namespace_rel. }
  intros _ _ _. eapply M_rel_bind with (R := dict_rel).
  { unfold aggregate. apply M_rel_for_fold; [|constructor].
    intros n d1 d2 Hd. by apply aggregate_node_rel. }
  intros d1 d2 Hd. eapply M_rel_bind with (R := eq).
  { apply M_rel_for_each with (R := edge_rel).
    - unfold values. apply Forall2_fmap. eapply Forall2_impl; [exact Hd|]. by intros ?? [_ ?].
    - intros e1 e2 He. by apply render_edge_rel. }
  intros _ _ _. apply M_rel_emit. constructor.
Qed.

(** C7: two passes over the same snapshot with the same arguments, started
    with the allocator at any two values, end alike (both return or both
    raise the same exception) and write documents of the same length whose
    calls agree pairwise in kind, labels, colours and pen widths, and differ
    at most in the numbers that end their identifiers. *)
Theorem passes_agree_up_to_suffixes (args : Args.t) (api : Discovery) (c1 c2 : nat) :
  (run c1 args api).1 = (run c2 args api).1
  ∧ Forall2 call_rel (run c1 args api).2 (run c2 args api).2.
Proof.
  destruct (main_rel args api (mkState c1 []) (mkState c2 [])) as [Hdoc Hres]; [constructor|].
  unfold run. simpl. split; [|done].
  destruct (main args api (mkState c1 [])) as [[[]|e1] st1],
           (main args api (mkState c2 [])) as [[[]|e2] st2]; simpl in *; try done; congruence.
Qed.

(** ** The properties on the sample inputs *)

Lemma empty_discovery_legend_only_witness :
  get_node_names empty_api (Args.all sample_args) = []
  ∧ run 0 sample_args empty_api = (Ok tt, begin_graph "LR" true :: legend 0 ++ [end_graph]).
Proof.
  split; [reflexivity|].
  apply (empty_discovery_legend_only sample_args empty_api 0). reflexivity.
Defined.

Lemma ignored_record_contributes_nothing_witness :
  ignore "/a/b/get_parameters" = true
  ∧ (∀ colour side node_id edges st,
       add_record colour side node_id
         (TopicInfo.mk "/a/b/get_parameters" ["rcl_interfaces/GetParameters"]) edges st
       = (Ok edges, st))
  ∧ (∀ args api st, ∃ edges st',
       aggregate args api (get_node_names api (Args.all args)) st = (Ok edges, st')
       ∧ dict_get "/a/b/get_parameters" edges = None).
Proof.
  apply (ignored_record_contributes_nothing
           (TopicInfo.mk "/a/b/get_parameters" ["rcl_interfaces/GetParameters"])).
  right. simpl. do 6 apply list_elem_of_further. apply list_elem_of_here.
Defined.

Lemma connections_rendered_witness :
  emit_connections sample_args fan_edge (mkState 7 []) =
    (Ok tt, mkState 7
       [ edge "node_1" "node_3" "/Y(3) [std_msgs/String]" "blue" "blue" 3;
         edge "node_2" "node_3" "/Y(3) [std_msgs/String]" "blue" "blue" 3;
         edge "node_3" "node_3" "/Y(3) [std_msgs/String]" "blue" "blue" 3 ]).
Proof.
  assert (Args.types sample_args = true → TopicInfo.types (Edge.topic fan_edge) ≠ []) as Hty.
  { intros _. discriminate. }
  destruct (connections_rendered sample_args fan_edge (mkState 7 []) Hty) as (Hrun & _ & _).
  rewrite Hrun. vm_compute. reflexivity.
Defined.

Lemma unconnected_edges_resolved_witness :
  render_edge sample_args lonely_edge (mkState 7 []) =
    (Ok tt, mkState 8
       [ node "blank_w_7" None (Some "invis");
         edge "node_3" "blank_w_7" "/X [std_msgs/Bool]" "blue" "blue" 1 ]).
Proof.
  assert (Args.types sample_args = true → TopicInfo.types (Edge.topic lonely_edge) ≠ []) as Hty.
  { intros _. discriminate. }
  pose proof (unconnected_edges_resolved sample_args lonely_edge (mkState 7 []) Hty) as H.
  simpl in H. destruct H as (_ & _ & _ & _ & _ & _ & Hrun & _).
  rewrite Hrun. vm_compute. reflexivity.
Defined.

Lemma one_edge_per_name_witness :
  add_record "blue" Src "node_1" topic_Y [] (mkState 4 []) =
    (Ok [("/Y", Edge.mk topic_Y ["node_1"] [] "edge_4" "blue")], mkState 5 []).
Proof.
  destruct (one_edge_per_name sample_args sample_api (mkState 0 [])) as (_ & _ & Hnew & _).
  rewrite (Hnew "blue" Src "node_1" topic_Y [] (mkState 4 [])) by reflexivity.
  vm_compute. reflexivity.
Defined.

Lemma first_record_fixes_edge_witness :
  ∃ edges st' e,
    aggregate sample_args sample_api (get_node_names sample_api (Args.all sample_args))
      (mkState 0 []) = (Ok edges, st')
    ∧ dict_get "/X" edges = Some e
    ∧ Edge.topic e = service_X
    ∧ Edge.id e = "edge_2"
    ∧ Edge.colour e = "orange".
Proof.
  destruct (first_record_fixes_edge sample_args sample_api (mkState 0 [])
              sample_pre sample_first sample_post)
    as (edges & st' & e & Hrun & Hget & Htopic & Hid & Hcolour & _).
  - vm_compute. reflexivity.
  - vm_compute. reflexivity.
  - intros s' Hin _. unfold sample_pre in Hin.
    repeat (apply elem_of_cons in Hin as [->|Hin]; [discriminate|]).
    by apply elem_of_nil in Hin.
  - exists edges, st', e. split_and!; [exact Hrun | exact Hget | exact Htopic | | exact Hcolour].
    rewrite Hid. vm_compute. reflexivity.
Defined.

Lemma first_type_indexing_witness :
  ∃ doc, run 0 sample_args sample_api = (Ok tt, doc).
Proof.
  destruct (first_type_indexing sample_args sample_api 0) as (_ & Hok & _).
  apply Hok. intros s Hin.
  assert (supplied sample_args sample_api = sample_pre ++ sample_first :: sample_post) as Heq.
  { vm_compute. reflexivity. }
  rewrite Heq in Hin. unfold sample_pre, sample_first, sample_post in Hin. simpl in Hin.
  repeat (apply elem_of_cons in Hin as [->|Hin]; [discriminate|]).
  by apply elem_of_nil in Hin.
Defined.

(** * Further properties of the code *)

(** ** Which names [ignore] rejects *)

Lemma last_segment_slash_free s : has_slash (last_segment s) = false.
Proof.
  induction s as [|c s IH]; simpl; [done|].
  destruct (has_slash s) eqn:Hs; [done|].
  destruct (Ascii.eqb c "/") eqn:Hc; [done|]. simpl. by rewrite Hc, Hs.
Qed.

Lemma last_segment_append p w :
  has_slash w = false → last_segment (p +:+ "/" +:+ w) = w.
Proof.
  intros Hw. induction p as [|c p IH].
  - change (last_segment (String "/" w) = w). simpl. by rewrite Hw.
  - change (last_segment (String c (p +:+ "/" +:+ w)) = w). simpl.
    assert (has_slash (p +:+ "/" +:+ w) = true) as ->; [|done].
    clear IH. induction p as [|c' p IH].
    + done.
    + change (has_slash (String c' (p +:+ "/" +:+ w)) = true). simpl.
      rewrite IH. by destruct (Ascii.eqb c' "/").
Qed.

Lemma append_slash_eq p w s :
  has_slash w = false → has_slash s = false → p +:+ "/" +:+ w = String "/" s →
  p = EmptyString ∧ w = s.
Proof.
  intros Hw Hs Heq. destruct p as [|c p].
  - by injection Heq.
  - exfalso. change (String c (p +:+ "/" +:+ w) = String "/" s) in Heq.
    injection Heq as _ Heq. subst s. clear c.
    induction p as [|c p IH].
    + done.
    + change (has_slash (String c (p +:+ "/" +:+ w)) = false) in Hs. simpl in Hs.
      apply orb_false_elim in Hs as [_ Hs]. by apply IH.
Qed.

(** [ignore] rejects a name exactly when it is [/rosout] or [/parameter_events]
    itself, or when its last path segment is one of the six parameter-service
    names.  The two denylist entries that start with a slash can never equal a
    last segment, so for a name [prefix/segment] the topics [rosout] and
    [parameter_events] are rejected only at the root: under any other prefix
    they pass the filter. *)
Theorem ignore_iff (name : string) :
  let services :=
    ["describe_parameters"; "get_parameter_types"; "list_parameters"; "set_parameters";
     "get_parameters"; "set_parameters_atomically"] in
  (ignore name = true ↔
   name = "/rosout" ∨ name = "/parameter_events" ∨ last_segment name ∈ services)
  ∧ (∀ prefix segment,
       has_slash segment = false → name = prefix +:+ "/" +:+ segment →
       (ignore name = true ↔
        segment ∈ services
        ∨ (prefix = EmptyString ∧ (segment = "rosout" ∨ segment = "parameter_events")))).
Proof.
  intros services.
  assert (ignore name = true ↔
          name = "/rosout" ∨ name = "/parameter_events" ∨ last_segment name ∈ services) as Hiff.
  { rewrite ignore_true, !ignore_list_members. unfold services.
    pose proof (last_segment_slash_free name) as Hfree.
    rewrite !elem_of_cons, !elem_of_nil. split.
    - intros [Hname|Hseg].
      + destruct Hname as [->|[->|Hname]]; [by left | by right; left |].
        right; right. rewrite last_segment_no_slash; [tauto|].
        destruct Hname as [->|[->|[->|[->|[->|[->|[]]]]]]]; reflexivity.
      + destruct Hseg as [Heq|[Heq|Hseg]]; [by rewrite Heq in Hfree | by rewrite Heq in Hfree |].
        right; right. tauto.
    - intros [->|[->|Hseg]]; [left; tauto | left; tauto | right; tauto]. }
  split; [exact Hiff|].
  intros prefix segment Hseg ->. rewrite Hiff, (last_segment_append _ _ Hseg). split.
  - intros [Heq|[Heq|Hin]]; [| |by left].
    + apply append_slash_eq in Heq as [-> ->]; [right; tauto | done | done].
    + apply append_slash_eq in Heq as [-> ->]; [right; tauto | done | done].
  - intros [Hin|[-> [->| ->]]]; [tauto | by left | by right; left].
Qed.

Lemma ignore_iff_witness :
  ignore "/robot1/rosout" = false
  ∧ ignore "/rosout" = true
  ∧ ignore "/robot1/arm/set_parameters" = true.
Proof.
  destruct (ignore_iff "/robot1/rosout") as [_ H1].
  destruct (ignore_iff "/rosout") as [_ H2].
  destruct (ignore_iff "/robot1/arm/set_parameters") as [_ H3].
  split_and!.
  - destruct (ignore "/robot1/rosout") eqn:Hig; [|done]. exfalso.
    destruct (H1 "/robot1" "rosout" eq_refl eq_refl) as [Hfwd _].
    destruct (Hfwd eq_refl) as [Hin|[Heq _]].
    + repeat (apply elem_of_cons in Hin as [Heq|Hin]; [discriminate Heq|]).
      by apply elem_of_nil in Hin.
    + discriminate Heq.
  - apply (H2 EmptyString "rosout"); [reflexivity | reflexivity |]. right. tauto.
  - apply (H3 "/robot1/arm" "set_parameters"); [reflexivity | reflexivity |]. left.
    do 3 apply list_elem_of_further. apply list_elem_of_here.
Defined.

(** ** What the loop over the edges writes *)

Lemma renders_ret P : renders P (mret tt).
Proof. intros st. exists []. simpl. rewrite app_nil_r. split_and!; [constructor | done | by left]. Qed.

Lemma renders_emit (P : DotCall → Prop) c : P c → renders P (emit c).
Proof.
  intros Hc st. exists [c]. simpl. split_and!; [by apply Forall_singleton | done | by left].
Qed.

Lemma renders_seq P (m k : M unit) : renders P m → renders P k → renders P (m ;; k).
Proof.
  intros Hm Hk st. destruct (Hm st) as (calls & Hcalls & Hdoc & Hres).
  unfold mbind, M_bind. destruct (m st) as [[[]|e] st1]; simpl in *.
  - destruct (Hk st1) as (calls' & Hcalls' & Hdoc' & Hres').
    exists (calls ++ calls'). rewrite Hdoc', Hdoc, app_assoc.
    split_and!; [by apply Forall_app | done | done].
  - exists calls. destruct Hres as [Hres|Hres]; [done|]. by split_and!; [| |right].
Qed.

Lemma renders_for_each {A} P (l : list A) (body : A → M unit) :
  (∀ x, x ∈ l → renders P (body x)) → renders P (for_each l body).
Proof.
  induction l as [|x l IH]; intros Hbody; simpl.
  - apply renders_ret.
  - apply renders_seq; [apply Hbody, list_elem_of_here|].
    apply IH. intros y Hy. by apply Hbody, list_elem_of_further.
Qed.

Lemma renders_emit_connection (P : DotCall → Prop) args e a b :
  (∀ label, P (edge a b label (Edge.colour e) (Edge.colour e) (length (Edge.src e)))) →
  renders P (emit_connection args e a b).
Proof.
  intros HP st. unfold emit_connection, mbind, M_bind, mret, M_ret, raise, emit.
  destruct (Args.types args).
  - destruct (TopicInfo.types (Edge.topic e) !! 0); simpl.
    + eexists [_]. split_and!; [by apply Forall_singleton | done | by left].
    + exists []. rewrite app_nil_r. split_and!; [constructor | done | by right].
  - simpl. eexists [_]. split_and!; [by apply Forall_singleton | done | by left].
Qed.

Lemma renders_emit_connections (P : DotCall → Prop) args e :
  (∀ a b label, a ∈ Edge.src e → b ∈ Edge.dst e →
     P (edge a b label (Edge.colour e) (Edge.colour e) (length (Edge.src e)))) →
  renders P (emit_connections args e).
Proof.
  intros HP. unfold emit_connections. apply renders_for_each. intros a Ha.
  apply renders_for_each. intros b Hb. apply renders_emit_connection. intros label.
  by apply HP.
Qed.

Lemma allocated_here prefix prefixes (n : nat) :
  prefix ∈ prefixes → allocated prefixes (prefix +:+ pretty n).
Proof. intros Hin. by exists prefix, n. Qed.

Lemma placeholder_nodes_rendering (node_names : list NodeName.t) c e :
  Forall (rendering_call node_names) (placeholder_nodes c e).
Proof.
  unfold placeholder_nodes. apply Forall_app. split.
  - destruct (is_empty (Edge.src e)); [|constructor]. apply Forall_singleton. simpl.
    split; [done|]. apply allocated_here, list_elem_of_here.
  - destruct (is_empty (Edge.dst e)); [|constructor]. apply Forall_singleton. simpl.
    split; [done|]. apply allocated_here, list_elem_of_further, list_elem_of_here.
Qed.

Lemma with_placeholders_src (node_names : list NodeName.t) c e a :
  (∀ i, i ∈ Edge.src e → i ∈ NodeName.id <$> node_names) →
  a ∈ Edge.src (with_placeholders c e) →
  a ∈ NodeName.id <$> node_names ∨ allocated ["blank_r_"] a.
Proof.
  intros Hsrc. unfold with_placeholders. simpl. destruct (Edge.src e) as [|x l]; simpl.
  - intros ->%list_elem_of_singleton. right. apply allocated_here, list_elem_of_here.
  - intros Ha. left. by apply Hsrc.
Qed.

Lemma with_placeholders_dst (node_names : list NodeName.t) c e b :
  (∀ i, i ∈ Edge.dst e → i ∈ NodeName.id <$> node_names) →
  b ∈ Edge.dst (with_placeholders c e) →
  b ∈ NodeName.id <$> node_names ∨ allocated ["blank_w_"] b.
Proof.
  intros Hdst. unfold with_placeholders. simpl. destruct (Edge.dst e) as [|x l]; simpl.
  - intros ->%list_elem_of_singleton. right. apply allocated_here, list_elem_of_here.
  - intros Hb. left. by apply Hdst.
Qed.

Lemma elem_of_length_pos {A} (x : A) l : x ∈ l → (1 ≤ length l)%nat.
Proof. destruct l; [by intros ?%elem_of_nil | simpl; lia]. Qed.

Lemma renders_render_edge (node_names : list NodeName.t) args e :
  (∀ i, i ∈ Edge.src e → i ∈ NodeName.id <$> node_names) →
  (∀ i, i ∈ Edge.dst e → i ∈ NodeName.id <$> node_names) →
  Edge.colour e ∈ ["blue"; "orange"; "olive"] →
  renders (rendering_call node_names) (render_edge args e).
Proof.
  intros Hsrc Hdst Hcolour st. unfold render_edge.
  destruct (Args.unconnected args) eqn:Hunc.
  - erewrite bind_ok by (by apply resolve_unconnected_on).
    destruct (renders_emit_connections (rendering_call node_names) args
                (with_placeholders (counter st) e)) with
      (st := mkState (counter st + placeholder_count e)
                     (document st ++ placeholder_nodes (counter st) e))
      as (calls & Hcalls & Hdoc & Hres).
    { intros a b label Ha Hb. simpl. split_and!.
      - by eapply with_placeholders_src.
      - by eapply with_placeholders_dst.
      - done.
      - done.
      - by eapply elem_of_length_pos. }
    exists (placeholder_nodes (counter st) e ++ calls). rewrite Hdoc. simpl.
    rewrite app_assoc. split_and!; [|done|done].
    apply Forall_app. split; [apply placeholder_nodes_rendering | done].
  - erewrite bind_ok by (by apply resolve_unconnected_off).
    apply renders_emit_connections. intros a b label Ha Hb. simpl. split_and!.
    + left. by apply Hsrc.
    + left. by apply Hdst.
    + done.
    + done.
    + by eapply elem_of_length_pos.
Qed.

Lemma supplied_node_in args api s :
  s ∈ supplied args api → sup_node s ∈ get_node_names api (Args.all args).
Proof.
  unfold supplied. intros (n & Hs & Hn)%list_elem_of_bind.
  assert (sup_node s = n) as ->; [|done].
  unfold supplied_node in Hs.
  repeat (apply elem_of_app in Hs as [Hs|Hs]);
    repeat match goal with
           | H : _ ∈ (if ?b then _ else _) |- _ => destruct b
           | H : _ ∈ _ ++ _ |- _ => apply elem_of_app in H as [H|H]
           | H : _ ∈ [] |- _ => by apply elem_of_nil in H
           | H : _ ∈ _ <$> _ |- _ => apply list_elem_of_fmap in H as (r & -> & _)
           end; done.
Qed.

Lemma side_ids_elem side name evs i :
  i ∈ side_ids side name evs → ∃ s, s ∈ evs ∧ i = NodeName.id (sup_node s).
Proof.
  unfold side_ids. intros (s & -> & Hs)%list_elem_of_fmap.
  apply list_elem_of_filter in Hs as [_ Hs]. by exists s.
Qed.

Lemma edge_after_rendering args api name c e :
  edge_after name c (supplied args api) = Some e →
  (∀ i, i ∈ Edge.src e → i ∈ NodeName.id <$> get_node_names api (Args.all args))
  ∧ (∀ i, i ∈ Edge.dst e → i ∈ NodeName.id <$> get_node_names api (Args.all args))
  ∧ Edge.colour e ∈ ["blue"; "orange"; "olive"].
Proof.
  unfold edge_after.
  destruct (first_record name c (supplied args api)) as [[s k]|] eqn:Hfirst; [|done].
  intros [= <-]. simpl.
  assert (∀ side i, i ∈ side_ids side name (supplied args api) →
                    i ∈ NodeName.id <$> get_node_names api (Args.all args)) as Hids.
  { intros side i (s' & Hs' & ->)%side_ids_elem.
    apply list_elem_of_fmap. exists (sup_node s'). split; [done|]. by apply supplied_node_in. }
  split_and!; [apply Hids | apply Hids |].
  apply first_record_Some in Hfirst as (pre & post & Hsplit & _).
  assert (s ∈ supplied args api) as Hs.
  { rewrite Hsplit. apply elem_of_app. right. apply list_elem_of_here. }
  destruct (supplied_stream args api s Hs) as [(_ & -> & _)|[(_ & -> & _)|(_ & -> & _)]].
  - apply list_elem_of_here.
  - apply list_elem_of_further, list_elem_of_here.
  - do 2 apply list_elem_of_further. apply list_elem_of_here.
Qed.

Lemma write_namespace_cluster grouped_node ns members st :
  grouped_node !! ns = Some members →
  ∃ block st',
    write_namespace grouped_node ns st = (Ok tt, st')
    ∧ document st' = document st ++ block
    ∧ cluster_block ns members block.
Proof.
  intros Hlookup. unfold write_namespace, cluster_block. rewrite Hlookup.
  destruct st as [c doc]. destruct ns as [|ch ns]; simpl.
  - erewrite bind_ok by reflexivity. erewrite bind_ok by reflexivity.
    erewrite bind_ok by apply for_each_emit.
    eexists _, _. split; [done|]. split; [done|]. done.
  - erewrite bind_ok by reflexivity. erewrite bind_ok by reflexivity.
    erewrite bind_ok by apply for_each_emit.
    eexists _, _. split; [done|]. simpl. rewrite <- !app_assoc. split; [done|].
    by exists c.
Qed.

Lemma write_namespaces_clusters grouped_node (F : string → list NodeName.t) l st :
  (∀ ns, ns ∈ l → grouped_node !! ns = Some (F ns)) →
  ∃ blocks st',
    for_each l (write_namespace grouped_node) st = (Ok tt, st')
    ∧ document st' = document st ++ concat blocks
    ∧ Forall2 (λ ns block, cluster_block ns (F ns) block) l blocks.
Proof.
  revert st. induction l as [|ns l IH]; intros st Hlookup; simpl.
  - exists [], st. simpl. rewrite app_nil_r. by split_and!.
  - destruct (write_namespace_cluster grouped_node ns (F ns) st)
      as (block & st1 & Hrun & Hdoc & Hblock).
    { apply Hlookup, list_elem_of_here. }
    destruct (IH st1) as (blocks & st2 & Hrun' & Hdoc' & Hblocks).
    { intros ns' Hin. by apply Hlookup, list_elem_of_further. }
    exists (block :: blocks), st2. erewrite bind_ok by exact Hrun.
    split; [done|]. simpl. rewrite Hdoc', Hdoc, app_assoc. split; [done|].
    by constructor.
Qed.

(** The document of a pass: the graph opening, the legend, one block per
    namespace, what the loop over the edges wrote and, unless that loop
    raised [IndexError], the graph close. *)
Lemma main_document args api c :
  let node_names := get_node_names api (Args.all args) in
  let namespaces : gset string := list_to_set (NodeName.namespace <$> node_names) in
  ∃ blocks calls,
    Forall2 (λ ns block,
               cluster_block ns (filter (λ n, ns = NodeName.namespace n) node_names) block)
            (elements namespaces) blocks
    ∧ Forall (rendering_call node_names) calls
    ∧ (run c args api =
         (Ok tt, begin_graph "LR" true :: legend c ++ concat blocks ++ calls ++ [end_graph])
       ∨ run c args api =
           (Raise IndexError, begin_graph "LR" true :: legend c ++ concat blocks ++ calls)).
Proof.
  intros node_names namespaces. unfold run, main.
  erewrite bind_ok by reflexivity.
  erewrite bind_ok by apply write_legend_eq.
  destruct (write_namespaces_clusters (group_nodes namespaces node_names)
              (λ ns, filter (λ n, ns = NodeName.namespace n) node_names)
              (elements namespaces)
              (mkState (3 + c) ([begin_graph "LR" true] ++ legend c)))
    as (blocks & st1 & Hns & Hdoc1 & Hblocks).
  { intros ns Hin. rewrite group_nodes_lookup.
    rewrite decide_True; [done | by apply elem_of_elements]. }
  fold node_names. fold namespaces. simpl in Hns, Hdoc1. simpl.
  erewrite bind_ok by exact Hns.
  destruct (aggregate_result args api st1) as (d & Hagg & Hnd & Hget).
  fold node_names in Hagg. erewrite bind_ok by exact Hagg.
  destruct (renders_for_each (rendering_call node_names) (values d) (render_edge args)) with
    (st := mkState (counter st1 + live_count (supplied args api)) (document st1))
    as (calls & Hcalls & Hdoc2 & Hres).
  { unfold values. intros e ([k e'] & -> & Hin)%list_elem_of_fmap. simpl.
    apply dict_get_elem in Hin; [|done]. rewrite Hget in Hin.
    apply edge_after_rendering in Hin as (Hsrc & Hdst & Hcolour).
    by apply renders_render_edge. }
  exists blocks, calls. split; [done|]. split; [done|].
  unfold mbind, M_bind.
  destruct (for_each (values d) (render_edge args)
              (mkState (counter st1 + live_count (supplied args api)) (document st1)))
    as [[[]|err] st2]; simpl in *.
  - left. rewrite Hdoc2, Hdoc1. unfold legend. simpl. by rewrite <- ?app_assoc.
  - right. destruct Hres as [Hres|Hres]; [done|]. injection Hres as ->.
    rewrite Hdoc2, Hdoc1. unfold legend. simpl. by rewrite <- ?app_assoc.
Qed.

(** ** Every discovered node is entered once *)

Lemma filter_labelled_entries members :
  filter (λ x, labelled_node x = true) (node_entries members) = node_entries members.
Proof.
  unfold node_entries. induction members as [|n l IH]; [done|].
  rewrite fmap_cons, filter_cons, decide_True by done. by rewrite IH.
Qed.

Lemma filter_labelled_cluster ns members block :
  cluster_block ns members block →
  filter (λ x, labelled_node x = true) block = node_entries members.
Proof.
  unfold cluster_block. case_decide.
  - intros ->. apply filter_labelled_entries.
  - intros (n & ->). rewrite filter_cons, decide_False by done.
    rewrite filter_app, filter_labelled_entries.
    rewrite filter_cons, decide_False by done. by rewrite filter_nil, app_nil_r.
Qed.

Lemma filter_labelled_rendering (node_names : list NodeName.t) calls :
  Forall (rendering_call node_names) calls →
  filter (λ x, labelled_node x = true) calls = [].
Proof.
  induction 1 as [|x l Hx Hl IH]; [done|].
  rewrite filter_cons, IH. rewrite decide_False; [done|].
  destruct x as [| | |i [lab|] sty| | |]; simpl in *; done.
Qed.

Lemma filter_labelled_blocks (F : string → list NodeName.t) l blocks :
  Forall2 (λ ns block, cluster_block ns (F ns) block) l blocks →
  filter (λ x, labelled_node x = true) (concat blocks) = node_entries (l ≫= F).
Proof.
  induction 1 as [|ns block l blocks Hblock Hblocks IH]; [done|].
  rewrite bind_cons. cbn [concat].
  rewrite filter_app, IH, (filter_labelled_cluster _ _ _ Hblock).
  unfold node_entries. by rewrite fmap_app.
Qed.

Lemma namespace_split k (l : list string) (nodes : list NodeName.t) :
  k ∉ l →
  filter (λ n, NodeName.namespace n ∈ k :: l) nodes
  ≡ₚ filter (λ n, k = NodeName.namespace n) nodes
     ++ filter (λ n, NodeName.namespace n ∈ l) nodes.
Proof.
  intros Hk. induction nodes as [|n nodes IH]; [done|].
  rewrite !filter_cons.
  destruct (decide (k = NodeName.namespace n)) as [Heq|Hne].
  - rewrite decide_True by (rewrite <- Heq; apply list_elem_of_here).
    rewrite decide_False by (by rewrite <- Heq). simpl. by rewrite IH.
  - destruct (decide (NodeName.namespace n ∈ l)) as [Hin|Hnotin].
    + rewrite decide_True by (by apply list_elem_of_further).
      rewrite IH. apply Permutation_middle.
    + rewrite decide_False; [exact IH|].
      intros [?|?]%elem_of_cons; [by subst | done].
Qed.

Lemma namespace_partition (l : list string) (nodes : list NodeName.t) :
  NoDup l →
  (l ≫= λ ns, filter (λ n, ns = NodeName.namespace n) nodes)
  ≡ₚ filter (λ n, NodeName.namespace n ∈ l) nodes.
Proof.
  induction 1 as [|k l Hk Hl IH].
  - simpl. induction nodes as [|n nodes IHn]; [done|].
    rewrite filter_cons, decide_False; [exact IHn | apply not_elem_of_nil].
  - rewrite bind_cons, IH. symmetry. by apply namespace_split.
Qed.

Lemma filter_all {A} (P : A → Prop) `{∀ x, Decision (P x)} (l : list A) :
  Forall P l → filter P l = l.
Proof.
  induction 1 as [|x l Hx Hl IH]; [done|]. by rewrite filter_cons, decide_True, IH.
Qed.

(** Whatever the order in which the set of namespaces is iterated, and
    whether or not the pass later raises, the labelled node entries of the
    document are the entries of the discovered nodes, each node once: grouping
    by namespace neither drops nor repeats a node. *)
Theorem every_node_entered_once (args : Args.t) (api : Discovery) (c : nat) :
  filter (λ x, labelled_node x = true) (run c args api).2
  ≡ₚ node_entries (get_node_names api (Args.all args)).
Proof.
  destruct (main_document args api c) as (blocks & calls & Hblocks & Hcalls & Hrun).
  assert (filter (λ x, labelled_node x = true)
            (begin_graph "LR" true :: legend c ++ concat blocks ++ calls)
          ≡ₚ node_entries (get_node_names api (Args.all args))) as Hbody.
  { rewrite filter_cons, decide_False by done.
    rewrite !filter_app. rewrite (filter_labelled_rendering _ _ Hcalls), app_nil_r.
    rewrite (filter_labelled_blocks _ _ _ Hblocks).
    assert (filter (λ x, labelled_node x = true) (legend c) = []) as -> by done.
    simpl. unfold node_entries. apply fmap_Permutation.
    rewrite namespace_partition by apply NoDup_elements.
    rewrite filter_all; [done|]. apply Forall_forall. intros n Hn.
    apply elem_of_elements, elem_of_list_to_set, list_elem_of_fmap. by exists n. }
  destruct Hrun as [-> | ->]; cbn [snd].
  - replace (begin_graph "LR" true :: legend c ++ concat blocks ++ calls ++ [end_graph])
      with ((begin_graph "LR" true :: legend c ++ concat blocks ++ calls) ++ [end_graph])
      by (simpl; by rewrite <- !app_assoc).
    rewrite filter_app, Hbody.
    rewrite filter_cons, decide_False by done. by rewrite filter_nil, app_nil_r.
  - exact Hbody.
Qed.

(** ** Shape of the document *)

Lemma nesting_app inside doc1 doc2 :
  nesting inside (doc1 ++ doc2) = nesting inside doc1 ≫= λ inside', nesting inside' doc2.
Proof.
  revert inside. induction doc1 as [|x doc1 IH]; intros inside; [done|].
  destruct x, inside; simpl; try done; apply IH.
Qed.

Lemma nesting_entries inside members : nesting inside (node_entries members) = Some inside.
Proof. unfold node_entries. induction members as [|n l IH]; [done|]. exact IH. Qed.

Lemma nesting_cluster ns members block :
  cluster_block ns members block → nesting false block = Some false.
Proof.
  unfold cluster_block. case_decide.
  - intros ->. apply nesting_entries.
  - intros (n & ->). simpl. by rewrite nesting_app, nesting_entries.
Qed.

Lemma nesting_blocks (F : string → list NodeName.t) l blocks :
  Forall2 (λ ns block, cluster_block ns (F ns) block) l blocks →
  nesting false (concat blocks) = Some false.
Proof.
  induction 1 as [|ns block l blocks Hblock Hblocks IH]; [done|].
  simpl. by rewrite nesting_app, (nesting_cluster _ _ _ Hblock).
Qed.

Lemma nesting_rendering (node_names : list NodeName.t) inside calls :
  Forall (rendering_call node_names) calls → nesting inside calls = Some inside.
Proof.
  induction 1 as [|x l Hx Hl IH]; [done|]. destruct x; simpl in *; done.
Qed.

(** A pass either returns, and its document is the graph opening, a body and
    the graph close, or raises [IndexError] (never [KeyError]: both dict
    lookups of [main] always find their key), and its document is the graph
    opening and a body, the graph left open.  In the body every cluster that
    is opened is closed, no cluster lies inside another, and the graph is
    neither opened nor closed again. *)
Theorem document_shape (args : Args.t) (api : Discovery) (c : nat) :
  ∃ body,
    nesting false body = Some false
    ∧ (run c args api = (Ok tt, begin_graph "LR" true :: body ++ [end_graph])
       ∨ run c args api = (Raise IndexError, begin_graph "LR" true :: body)).
Proof.
  destruct (main_document args api c) as (blocks & calls & Hblocks & Hcalls & Hrun).
  exists (legend c ++ concat blocks ++ calls). split.
  - rewrite nesting_app.
    assert (nesting false (legend c) = Some false) as -> by done. simpl.
    rewrite nesting_app, (nesting_blocks _ _ _ Hblocks). simpl.
    by eapply nesting_rendering.
  - destruct Hrun as [-> | ->]; [left | right]; by rewrite <- ?app_assoc.
Qed.

(** ** Connections and identifiers of the document *)

Lemma main_document_Forall (P : DotCall → Prop) args api c :
  P (begin_graph "LR" true) →
  Forall P (legend c) →
  (∀ ns block,
     cluster_block ns (filter (λ n, ns = NodeName.namespace n)
                         (get_node_names api (Args.all args))) block →
     Forall P block) →
  (∀ x, rendering_call (get_node_names api (Args.all args)) x → P x) →
  P end_graph →
  Forall P (run c args api).2.
Proof.
  intros Hopen Hlegend Hblock Hcall Hclose.
  destruct (main_document args api c) as (blocks & calls & Hblocks & Hcalls & Hrun).
  assert (Forall P (concat blocks)) as Hconcat.
  { clear Hrun. induction Hblocks as [|ns block l blocks Hb Hbs IH]; [constructor|].
    simpl. apply Forall_app. split; [by eapply Hblock | exact IH]. }
  assert (Forall P calls) as Hcalls' by (eapply Forall_impl; [exact Hcalls | exact Hcall]).
  destruct Hrun as [-> | ->]; cbn [snd]; constructor; try done;
    repeat (apply Forall_app; split; try done).
  by apply Forall_singleton.
Qed.

(** Every connection of the document, whatever the pass's outcome, leads
    from a discovered node or a [blank_r_] placeholder to a discovered node or
    a [blank_w_] placeholder, has the same colour for its line and its label,
    one of blue, orange and olive, and a pen width of at least one. *)
Theorem connections_well_formed (args : Args.t) (api : Discovery) (c : nat) :
  Forall (λ x, match x with
               | edge a b _ fontcolor color penwidth =>
                   (a ∈ NodeName.id <$> get_node_names api (Args.all args)
                    ∨ allocated ["blank_r_"] a)
                   ∧ (b ∈ NodeName.id <$> get_node_names api (Args.all args)
                      ∨ allocated ["blank_w_"] b)
                   ∧ fontcolor = color
                   ∧ color ∈ ["blue"; "orange"; "olive"]
                   ∧ (1 ≤ penwidth)%nat
               | _ => True
               end)
         (run c args api).2.
Proof.
  apply main_document_Forall; [done | by repeat constructor | | | done].
  - intros ns block. unfold cluster_block. case_decide.
    + intros ->. unfold node_entries. apply Forall_fmap, Forall_forall. by intros n _.
    + intros (n & ->). constructor; [done|]. apply Forall_app. split.
      * unfold node_entries. apply Forall_fmap, Forall_forall. by intros m _.
      * by apply Forall_singleton.
  - intros x Hx. by destruct x.
Qed.

Lemma allocated_mono prefixes prefixes' i :
  (∀ p, p ∈ prefixes → p ∈ prefixes') → allocated prefixes i → allocated prefixes' i.
Proof. intros Hsub (p & n & Hp & ->). exists p, n. split; [by apply Hsub | done]. Qed.

(** The identifiers the document mentions are those of discovered nodes and
    identifiers allocated for clusters, for the two legend keys and for
    placeholders.  The identifier allocated for every live record, and stored
    in its edge, is written nowhere. *)
Theorem identifiers_written (args : Args.t) (api : Discovery) (c : nat) :
  Forall (λ x, Forall (λ i, i ∈ NodeName.id <$> get_node_names api (Args.all args)
                            ∨ allocated ["cluster_"; "key_"; "key2_"; "blank_r_"; "blank_w_"] i)
                      (call_ids x))
         (run c args api).2.
Proof.
  assert (∀ members : list NodeName.t,
            (∀ n, n ∈ members → n ∈ get_node_names api (Args.all args)) →
            Forall (λ x, Forall (λ i, i ∈ NodeName.id <$> get_node_names api (Args.all args)
                                      ∨ allocated ["cluster_"; "key_"; "key2_"; "blank_r_";
                                                   "blank_w_"] i) (call_ids x))
                   (node_entries members)) as Hentries.
  { intros members Hsub. unfold node_entries. apply Forall_fmap, Forall_forall.
    intros n Hn. simpl. apply Forall_singleton. left.
    apply list_elem_of_fmap. exists n. split; [done | by apply Hsub]. }
  apply main_document_Forall.
  - constructor.
  - unfold legend.
    repeat first [apply Forall_nil_2 | apply Forall_cons_2]; simpl;
      repeat first [apply Forall_nil_2 | apply Forall_cons_2];
      right; apply allocated_here;
      repeat first [apply list_elem_of_here | apply list_elem_of_further].
  - intros ns block. unfold cluster_block. case_decide.
    + intros ->. apply Hentries. by intros n [_ ?]%list_elem_of_filter.
    + intros (n & ->). constructor.
      * simpl. apply Forall_singleton. right. apply allocated_here, list_elem_of_here.
      * apply Forall_app. split; [|by apply Forall_singleton; constructor].
        apply Hentries. by intros m [_ ?]%list_elem_of_filter.
  - intros x Hx. destruct x as [| | |i [lab|] [sty|]|a b l fc col w| |]; simpl in Hx; try done.
    + destruct Hx as [_ Halloc]. simpl. apply Forall_singleton. right.
      eapply allocated_mono; [|exact Halloc].
      intros p Hp. do 3 apply list_elem_of_further. exact Hp.
    + destruct Hx as (Ha & Hb & _). simpl. constructor; [|apply Forall_singleton].
      * destruct Ha as [?|Ha]; [by left | right].
        eapply allocated_mono; [|exact Ha].
        intros p ->%list_elem_of_singleton. do 3 apply list_elem_of_further. apply list_elem_of_here.
      * destruct Hb as [?|Hb]; [by left | right].
        eapply allocated_mono; [|exact Hb].
        intros p ->%list_elem_of_singleton. do 4 apply list_elem_of_further. apply list_elem_of_here.
  - constructor.
Qed.

(** ** The legend comes first *)

(** Whatever the arguments and the discovery, and whether or not the pass
    raises, the document starts with the graph opening followed by the whole
    legend cluster; the legend depends on nothing but the allocator. *)
Theorem legend_always_first (args : Args.t) (api : Discovery) (c : nat) :
  ∃ rest, (run c args api).2 = begin_graph "LR" true :: legend c ++ rest.
Proof.
  destruct (main_document args api c) as (blocks & calls & _ & _ & [-> | ->]);
    cbn [snd]; by eexists.
Qed.

(** ** Order of the edges and use of the allocator *)

Lemma elem_of_first_seen x l : x ∈ first_seen l ↔ x ∈ l.
Proof.
  induction l as [|y l IH]; simpl; [done|].
  rewrite !elem_of_cons, list_elem_of_filter, IH.
  destruct (decide (x = y)); [tauto | tauto].
Qed.

Lemma first_seen_snoc l x :
  first_seen (l ++ [x]) = first_seen l ++ (if decide (x ∈ l) then [] else [x]).
Proof.
  induction l as [|y l IH].
  - destruct (decide (x ∈ [])) as [Hin|_]; [by apply not_elem_of_nil in Hin | done].
  - change (y :: filter (λ z, z ≠ y) (first_seen (l ++ [x]))
            = (y :: filter (λ z, z ≠ y) (first_seen l))
              ++ (if decide (x ∈ y :: l) then [] else [x])).
    rewrite IH, filter_app. rewrite <- app_comm_cons. f_equal. f_equal.
    destruct (decide (x ∈ y :: l)) as [Hin'|Hnotin'], (decide (x ∈ l)) as [Hin|Hnotin].
    + done.
    + apply elem_of_cons in Hin' as [->|?]; [|done].
      rewrite filter_cons, decide_False; [done | by intros ?].
    + exfalso. by apply Hnotin', list_elem_of_further.
    + rewrite filter_cons, decide_True; [done|].
      intros ->. apply Hnotin', list_elem_of_here.
Qed.

Lemma first_seen_length l : (length (first_seen l) ≤ length l)%nat.
Proof.
  induction l as [|x l IH]; simpl; [done|].
  pose proof (length_filter (λ y, y ≠ x) (first_seen l)). lia.
Qed.

Lemma setdefault_keys k v d :
  (setdefault k v d).*1 = d.*1 ++ (if decide (k ∈ d.*1) then [] else [k]).
Proof.
  unfold setdefault. destruct (dict_get k d) as [e|] eqn:Hget.
  - rewrite decide_True; [by rewrite app_nil_r|].
    destruct (decide (k ∈ d.*1)) as [|Hnotin]; [done|].
    apply dict_get_None in Hnotin. congruence.
  - rewrite decide_False by (by apply dict_get_None). by rewrite fmap_app.
Qed.

Lemma live_names_snoc evs s :
  live_names (evs ++ [s]) = live_names evs ++ (if live s then [sup_name s] else []).
Proof.
  unfold live_names. rewrite filter_app, fmap_app. f_equal.
  rewrite filter_cons, filter_nil. destruct (live s); by case_decide.
Qed.

Lemma fold_supplied_keys evs c doc :
  ∃ d, for_fold evs add_supplied [] (mkState c doc) = (Ok d, mkState (c + live_count evs) doc)
       ∧ d.*1 = first_seen (live_names evs).
Proof.
  induction evs as [|s evs (d & Hrun & Hkeys)] using rev_ind.
  - exists []. unfold live_count. simpl. by rewrite Nat.add_0_r.
  - rewrite for_fold_app. erewrite bind_ok by exact Hrun. simpl.
    unfold mbind at 1, M_bind at 1. rewrite add_supplied_eq.
    rewrite live_count_snoc, live_names_snoc.
    destruct (live s) eqn:Hl; simpl.
    + eexists. split; [unfold mret, M_ret; do 2 f_equal; lia|].
      rewrite dict_alter_keys, setdefault_keys, Hkeys, first_seen_snoc.
      f_equal. destruct (decide (sup_name s ∈ live_names evs)) as [Hin|Hnotin].
      * by rewrite decide_True by (by apply elem_of_first_seen).
      * by rewrite decide_False by (by rewrite elem_of_first_seen).
    + exists d. split; [unfold mret, M_ret; do 2 f_equal; lia|].
      by rewrite app_nil_r.
Qed.

(** The aggregator never raises and writes nothing.  Because the default
    edge passed to [setdefault] is built before the call, it takes one
    identifier from the allocator for every live record, not one per edge;
    and the dict holds the channel names in the order in which they first
    appear among the live records, which is the order in which their
    connections are later written. *)
Theorem aggregate_order_and_allocations (args : Args.t) (api : Discovery) (st : State) :
  ∃ edges,
    aggregate args api (get_node_names api (Args.all args)) st
      = (Ok edges, mkState (counter st + live_count (supplied args api)) (document st))
    ∧ edges.*1 = first_seen (live_names (supplied args api))
    ∧ (length edges ≤ live_count (supplied args api))%nat.
Proof.
  rewrite aggregate_supplied. destruct st as [c doc].
  destruct (fold_supplied_keys (supplied args api) c doc) as (d & Hrun & Hkeys).
  exists d. split_and!; [done | done |].
  rewrite <- (length_fmap fst d), Hkeys.
  etrans; [apply first_seen_length|]. unfold live_names, live_count. by rewrite length_fmap.
Qed.

(** ** What a pass reads *)

Lemma for_each_ext {A} (l : list A) (body1 body2 : A → M unit) st :
  (∀ x st', body1 x st' = body2 x st') → for_each l body1 st = for_each l body2 st.
Proof.
  intros Hbody. revert st. induction l as [|x l IH]; intros st; [done|].
  simpl. apply bind_cong; [apply Hbody | intros _ st'; apply IH].
Qed.

Lemma render_edge_ext args1 args2 e st :
  Args.types args1 = Args.types args2 →
  Args.unconnected args1 = Args.unconnected args2 →
  render_edge args1 e st = render_edge args2 e st.
Proof.
  intros Hty Hunc. unfold render_edge, resolve_unconnected, emit_connections, emit_connection.
  by rewrite Hty, Hunc.
Qed.

Lemma supplied_ext args1 args2 api1 api2 :
  get_node_names api1 (Args.all args1) = get_node_names api2 (Args.all args2) →
  (∀ n, n ∈ get_node_names api1 (Args.all args1) →
        supplied_node args1 api1 n = supplied_node args2 api2 n) →
  supplied args1 api1 = supplied args2 api2.
Proof.
  intros Hnodes Hstreams. unfold supplied. rewrite <- Hnodes.
  revert Hstreams. generalize (get_node_names api1 (Args.all args1)).
  intros l. induction l as [|n l IH]; intros Hstreams; [done|].
  rewrite !bind_cons, Hstreams by apply list_elem_of_here.
  f_equal. apply IH. intros m Hm. by apply Hstreams, list_elem_of_further.
Qed.

(** A pass depends on its inputs only through: the two display flags; which
    of the three category names occur in the selection (order, repetitions
    and other strings do not matter); the node list at [args.all]; and, for
    each discovered node and each selected category, the two record lists of
    that category at [args.all].  Record lists of unselected categories, of
    other nodes and at the other value of the hidden flag are never read. *)
Theorem pass_inputs (args1 args2 : Args.t) (api1 api2 : Discovery) (c : nat) :
  let all1 := Args.all args1 in
  let all2 := Args.all args2 in
  Args.types args1 = Args.types args2 →
  Args.unconnected args1 = Args.unconnected args2 →
  selected "topics" args1 = selected "topics" args2 →
  selected "services" args1 = selected "services" args2 →
  selected "actions" args1 = selected "actions" args2 →
  get_node_names api1 all1 = get_node_names api2 all2 →
  (∀ n, n ∈ get_node_names api1 all1 → selected "topics" args1 = true →
     get_subscriber_info api1 (NodeName.full_name n) all1
       = get_subscriber_info api2 (NodeName.full_name n) all2
     ∧ get_publisher_info api1 (NodeName.full_name n) all1
         = get_publisher_info api2 (NodeName.full_name n) all2) →
  (∀ n, n ∈ get_node_names api1 all1 → selected "services" args1 = true →
     get_service_client_info api1 (NodeName.full_name n) all1
       = get_service_client_info api2 (NodeName.full_name n) all2
     ∧ get_service_server_info api1 (NodeName.full_name n) all1
         = get_service_server_info api2 (NodeName.full_name n) all2) →
  (∀ n, n ∈ get_node_names api1 all1 → selected "actions" args1 = true →
     get_action_client_info api1 (NodeName.full_name n) all1
       = get_action_client_info api2 (NodeName.full_name n) all2
     ∧ get_action_server_info api1 (NodeName.full_name n) all1
         = get_action_server_info api2 (NodeName.full_name n) all2) →
  run c args1 api1 = run c args2 api2.
Proof.
  intros all1 all2 Hty Hunc Htopics Hservices Hactions Hnodes Ht Hs Ha.
  subst all1 all2.
  assert (supplied args1 api1 = supplied args2 api2) as Hsupplied.
  { apply supplied_ext; [exact Hnodes|]. intros n Hn. unfold supplied_node.
    rewrite <- Htopics, <- Hservices, <- Hactions.
    f_equal; [|f_equal].
    - destruct (selected "topics" args1) eqn:Hsel; [|done].
      destruct (Ht n Hn eq_refl) as [-> ->]. done.
    - destruct (selected "services" args1) eqn:Hsel; [|done].
      destruct (Hs n Hn eq_refl) as [-> ->]. done.
    - destruct (selected "actions" args1) eqn:Hsel; [|done].
      destruct (Ha n Hn eq_refl) as [-> ->]. done. }
  assert (∀ st, main args1 api1 st = main args2 api2 st) as Hmain.
  { intros st. unfold main. rewrite <- Hnodes.
    apply bind_cong; [done|]; intros _ st1.
    apply bind_cong; [done|]; intros _ st2.
    apply bind_cong; [done|]; intros _ st3.
    apply bind_cong.
    - rewrite aggregate_supplied. rewrite Hnodes.
      rewrite aggregate_supplied. by rewrite Hsupplied.
    - intros d st4. apply bind_cong; [|done].
      apply for_each_ext. intros e st5. by apply render_edge_ext. }
  unfold run. by rewrite Hmain.
Qed.

Lemma pass_inputs_witness :
  run 0 topics_services_args sample_api = run 0 topics_services_args_variant sample_api_variant.
Proof.
  apply (pass_inputs topics_services_args topics_services_args_variant
           sample_api sample_api_variant 0); try reflexivity.
  - by intros n _ _.
  - by intros n _ _.
  - intros n _ Hsel. discriminate Hsel.
Defined.

(** With none of the three categories selected no record is read: the pass
    returns normally, whatever the records' type lists, and writes the
    legend and the node blocks but no placeholder and no connection. *)
Theorem nothing_selected (args : Args.t) (api : Discovery) (c : nat) :
  selected "topics" args = false →
  selected "services" args = false →
  selected "actions" args = false →
  ∃ blocks,
    Forall2 (λ ns block,
               cluster_block ns (filter (λ n, ns = NodeName.namespace n)
                                   (get_node_names api (Args.all args))) block)
            (elements (list_to_set (NodeName.namespace <$> get_node_names api (Args.all args))
                         : gset string)) blocks
    ∧ run c args api = (Ok tt, begin_graph "LR" true :: legend c ++ concat blocks ++ [end_graph]).
Proof.
  intros Ht Hs Ha.
  assert (supplied args api = []) as Hnone.
  { unfold supplied. induction (get_node_names api (Args.all args)) as [|n l IH]; [done|].
    rewrite bind_cons, IH. unfold supplied_node. by rewrite Ht, Hs, Ha. }
  set (node_names := get_node_names api (Args.all args)) in *.
  set (namespaces := list_to_set (NodeName.namespace <$> node_names) : gset string).
  unfold run, main.
  erewrite bind_ok by reflexivity.
  erewrite bind_ok by apply write_legend_eq.
  destruct (write_namespaces_clusters (group_nodes namespaces node_names)
              (λ ns, filter (λ n, ns = NodeName.namespace n) node_names)
              (elements namespaces)
              (mkState (3 + c) ([begin_graph "LR" true] ++ legend c)))
    as (blocks & st1 & Hns & Hdoc1 & Hblocks).
  { intros ns Hin. rewrite group_nodes_lookup.
    rewrite decide_True; [done | by apply elem_of_elements]. }
  exists blocks. split; [done|].
  fold node_names. fold namespaces. simpl in Hns, Hdoc1. simpl.
  erewrite bind_ok by exact Hns.
  assert (aggregate args api node_names st1 = (Ok [], st1)) as Hagg.
  { unfold node_names. rewrite aggregate_supplied. fold node_names. by rewrite Hnone. }
  erewrite bind_ok by exact Hagg.
  unfold values, mbind, M_bind, emit. simpl.
  rewrite Hdoc1. unfold legend. simpl. by rewrite <- ?app_assoc.
Qed.

Lemma nothing_selected_witness :
  ∃ blocks, run 0 no_category_args untyped_api
            = (Ok tt, begin_graph "LR" true :: legend 0 ++ concat blocks ++ [end_graph]).
Proof.
  destruct (nothing_selected no_category_args untyped_api 0) as (blocks & _ & Hrun);
    [reflexivity | reflexivity | reflexivity |].
  by exists blocks.
Defined.

(** ** When a pass raises *)

Lemma is_empty_true {A} (l : list A) : is_empty l = true ↔ l = [].
Proof. by destruct l. Qed.

Lemma is_empty_false {A} (l : list A) : is_empty l = false ↔ l ≠ [].
Proof. by destruct l. Qed.

Lemma first_record_shift name c c' evs :
  fst <$> first_record name c evs = fst <$> first_record name c' evs.
Proof.
  revert c c'. induction evs as [|s evs IH]; intros c c'; simpl; [done|].
  destruct (live s); [|apply IH]. destruct (String.eqb (sup_name s) name); [done | apply IH].
Qed.

Lemma dict_elem_get k e d : dict_get k d = Some e → (k, e) ∈ d.
Proof.
  induction d as [|[k' e'] d IH]; simpl; [done|].
  destruct (String.eqb_spec k k') as [->|_].
  - intros [= ->]. apply list_elem_of_here.
  - intros H. by apply list_elem_of_further, IH.
Qed.

Lemma existsb_elem {A} (f : A → bool) (l : list A) :
  existsb f l = true ↔ ∃ x, x ∈ l ∧ f x = true.
Proof.
  induction l as [|y l IH]; simpl.
  - split; [done | by intros (x & ?%elem_of_nil & _)].
  - rewrite orb_true_iff, IH. split.
    + intros [Hy|(x & Hx & Hf)]; [exists y | exists x]; split; try done;
        [apply list_elem_of_here | by apply list_elem_of_further].
    + intros (x & [->|Hx]%elem_of_cons & Hf); [by left | right; by exists x].
Qed.

Lemma render_edge_outcome args e st :
  ∃ st', render_edge args e st = (if edge_raises args e then Raise IndexError else Ok tt, st').
Proof.
  unfold edge_raises.
  destruct (Args.types args) eqn:Hshow; simpl;
    [destruct (TopicInfo.types (Edge.topic e)) as [|ty tys] eqn:Hty; simpl|].
  - unfold render_edge. destruct (Args.unconnected args) eqn:Hunc; simpl.
    + erewrite bind_ok by (by apply resolve_unconnected_on).
      eexists. apply emit_connections_fail; [done | | | done].
      * unfold with_placeholders. simpl. by destruct (Edge.src e).
      * unfold with_placeholders. simpl. by destruct (Edge.dst e).
    + erewrite bind_ok by (by apply resolve_unconnected_off).
      destruct (Edge.src e) as [|a l] eqn:Hsrc; simpl;
        [|destruct (Edge.dst e) as [|b l'] eqn:Hdst; simpl].
      * eexists. apply emit_connections_empty. by left.
      * eexists. apply emit_connections_empty. by right.
      * eexists. apply emit_connections_fail; [done | | | done]; by (rewrite ?Hsrc, ?Hdst).
  - destruct (render_edge_ok args e) with (st := st) as ([] & st' & Hrun);
      [intros _; by rewrite Hty | by exists st'].
  - destruct (render_edge_ok args e) with (st := st) as ([] & st' & Hrun);
      [by rewrite Hshow | by exists st'].
Qed.

Lemma for_each_outcome {A} (raises : A → bool) (l : list A) (body : A → M unit) st :
  (∀ x st, ∃ st', body x st = (if raises x then Raise IndexError else Ok tt, st')) →
  ∃ st', for_each l body st = (if existsb raises l then Raise IndexError else Ok tt, st').
Proof.
  intros Hbody. revert st. induction l as [|x l IH]; intros st; simpl.
  - by exists st.
  - destruct (Hbody x st) as (st1 & Hrun). destruct (raises x); simpl.
    + exists st1. by erewrite bind_raise by exact Hrun.
    + erewrite bind_ok by exact Hrun. apply IH.
Qed.

Lemma main_outcome args api c :
  ∃ d c1,
    NoDup d.*1
    ∧ (∀ name, dict_get name d = edge_after name c1 (supplied args api))
    ∧ (run c args api).1
      = if existsb (edge_raises args) (values d) then Raise IndexError else Ok tt.
Proof.
  set (node_names := get_node_names api (Args.all args)).
  set (namespaces := list_to_set (NodeName.namespace <$> node_names) : gset string).
  unfold run, main.
  erewrite bind_ok by reflexivity.
  erewrite bind_ok by apply write_legend_eq.
  destruct (write_namespaces_clusters (group_nodes namespaces node_names)
              (λ ns, filter (λ n, ns = NodeName.namespace n) node_names)
              (elements namespaces)
              (mkState (3 + c) ([begin_graph "LR" true] ++ legend c)))
    as (blocks & st1 & Hns & _ & _).
  { intros ns Hin. rewrite group_nodes_lookup.
    rewrite decide_True; [done | by apply elem_of_elements]. }
  fold node_names. fold namespaces. simpl in Hns. simpl.
  erewrite bind_ok by exact Hns.
  destruct (aggregate_result args api st1) as (d & Hagg & Hnd & Hget).
  fold node_names in Hagg. erewrite bind_ok by exact Hagg.
  exists d, (counter st1). split; [done|]. split; [done|].
  destruct (for_each_outcome (edge_raises args) (values d) (render_edge args)
              (mkState (counter st1 + live_count (supplied args api)) (document st1)))
    as (st2 & Hrender); [apply render_edge_outcome|].
  unfold mbind, M_bind. rewrite Hrender.
  by destruct (existsb (edge_raises args) (values d)).
Qed.

(** A pass returns normally or raises [IndexError].  It raises exactly when
    types are shown and, for some channel, the first record that passes the
    ignore filter has an empty type list (later records of the channel are
    never consulted) and the channel gets a connection: placeholders are on,
    or the channel has both a source and a destination record.  With
    placeholders off, an untyped channel that lacks one side does no harm. *)
Theorem pass_raises_iff (args : Args.t) (api : Discovery) (c : nat) :
  ((run c args api).1 = Ok tt ∨ (run c args api).1 = Raise IndexError)
  ∧ ((run c args api).1 = Raise IndexError ↔
     Args.types args = true
     ∧ ∃ s k,
         first_record (sup_name s) 0 (supplied args api) = Some (s, k)
         ∧ TopicInfo.types (sup_rec s) = []
         ∧ (Args.unconnected args = true
            ∨ (side_ids Src (sup_name s) (supplied args api) ≠ []
               ∧ side_ids Dst (sup_name s) (supplied args api) ≠ []))).
Proof.
  destruct (main_outcome args api c) as (d & c1 & Hnd & Hget & ->).
  split; [destruct (existsb (edge_raises args) (values d)); [by right | by left]|].
  split.
  - destruct (existsb (edge_raises args) (values d)) eqn:Hex; [|done]. intros _.
    apply existsb_elem in Hex as (e & He & Hraises).
    unfold values in He. apply list_elem_of_fmap in He as ([name e'] & -> & Hin). simpl in Hraises.
    apply dict_get_elem in Hin; [|done]. rewrite Hget in Hin. unfold edge_after in Hin.
    destruct (first_record name c1 (supplied args api)) as [[s n]|] eqn:Hfirst; [|done].
    injection Hin as <-. unfold edge_raises in Hraises. simpl in Hraises.
    apply andb_true_iff in Hraises as [[Hshow Hty]%andb_true_iff Hconn].
    split; [done|].
    pose proof (first_record_Some _ _ _ _ _ Hfirst) as (_ & _ & _ & _ & Hname & _).
    pose proof (first_record_shift name c1 0 (supplied args api)) as Hshift.
    rewrite Hfirst in Hshift.
    destruct (first_record name 0 (supplied args api)) as [[s' n']|] eqn:Hfirst0; [|done].
    injection Hshift as <-. exists s, n'. rewrite Hname.
    split_and!; [done | by apply is_empty_true |].
    apply orb_true_iff in Hconn as [?|[Hs Hd]%andb_true_iff]; [by left | right].
    split; apply is_empty_false; by apply negb_true_iff.
  - intros (Hshow & s & k & Hfirst0 & Hty & Hconn).
    pose proof (first_record_shift (sup_name s) c1 0 (supplied args api)) as Hshift.
    rewrite Hfirst0 in Hshift.
    destruct (first_record (sup_name s) c1 (supplied args api)) as [[s' n']|] eqn:Hfirst; [|done].
    injection Hshift as ->.
    assert (existsb (edge_raises args) (values d) = true) as ->; [|done].
    apply existsb_elem.
    eexists. split.
    + unfold values. apply list_elem_of_fmap. eexists (sup_name s, _). split; [done|].
      apply dict_elem_get. rewrite Hget. unfold edge_after. by rewrite Hfirst.
    + unfold edge_raises. simpl. rewrite Hshow, Hty. simpl.
      destruct Hconn as [->|[Hs Hd]]; [done|].
      apply is_empty_false in Hs, Hd. rewrite Hs, Hd. by rewrite orb_true_r.
Qed.
